(** * SERO: deployment simulation and map synchronisation engine

    A shallow embedding of the pure and state-passing parts of the
    [VehiclesMap] component (the spatial grid indexer, the position
    interpolator, the deployment and route orchestrator, the playback
    clock and the selection state), followed by the properties proved
    about them.

    A JavaScript [number] is an IEEE 754 binary64 value; it is modelled
    by Rocq's primitive [float], whose operations are the same binary64
    operations (round to nearest, ties to even). *)

From Stdlib Require Import Floats ZArith Lia Bool.
From Stdlib Require Uint63.
From stdpp Require Import gmap strings list pretty.

#[local] Set Warnings "-inexact-float".
Local Open Scope float_scope.

(** ** JavaScript numbers *)

Module JsNumber.

(** The order of binary64 values, read off [SFcompare]: every value that
    is not NaN gets a rank in a lexicographic order on triples. *)
Definition sf_rank (f : spec_float) : option (Z * Z * Z) :=
  match f with
  | S754_nan => None
  | S754_infinity true => Some (-2, 0, 0)%Z
  | S754_infinity false => Some (2, 0, 0)%Z
  | S754_zero _ => Some (0, 0, 0)%Z
  | S754_finite true m e => Some (-1, - e, Z.neg m)%Z
  | S754_finite false m e => Some (1, e, Z.pos m)%Z
  end.

Definition lex3 (a b : Z * Z * Z) : comparison :=
  let '(a1, a2, a3) := a in
  let '(b1, b2, b3) := b in
  match (a1 ?= b1)%Z with
  | Eq => match (a2 ?= b2)%Z with
          | Eq => (a3 ?= b3)%Z
          | c => c
          end
  | c => c
  end.

Definition lt3 (a b : Z * Z * Z) : Prop :=
  let '(a1, a2, a3) := a in
  let '(b1, b2, b3) := b in
  (a1 < b1 \/ (a1 = b1 /\ (a2 < b2 \/ (a2 = b2 /\ a3 < b3))))%Z.

Definition rank (x : float) : option (Z * Z * Z) := sf_rank (Prim2SF x).

(** [x >= y] and [x > y] of JavaScript are [y <= x] and [y < x]. *)
Definition geb (x y : float) : bool := y <=? x.
Definition gtb (x y : float) : bool := y <? x.

(** [!x] for a number: zero (of either sign) and NaN are falsy. *)
Definition falsy (x : float) : bool :=
  PrimFloat.is_zero x || PrimFloat.is_nan x.

(** [Math.floor]. A finite value with a non-negative exponent is an
    integer already; below that the magnitude is under 2^53, so the
    floor is an integer that [of_uint63] converts exactly. NaN, the
    infinities and the zeros are returned unchanged. *)
Definition float_of_Z (n : Z) : float :=
  if (n <? 0)%Z then - of_uint63 (Uint63.of_Z (- n))
  else of_uint63 (Uint63.of_Z n).

Definition Math_floor (x : float) : float :=
  match Prim2SF x with
  | S754_finite s m e =>
      if (0 <=? e)%Z then x
      else float_of_Z (Z.div (if s then Z.neg m else Z.pos m) (2 ^ (- e)))
  | _ => x
  end.

(** [Math.ceil x] is [-Math.floor(-x)], signed zeros included. *)
Definition Math_ceil (x : float) : float := - Math_floor (- x).

(** [Math.max] of two numbers: NaN if either is NaN, and [+0] above [-0]. *)
Definition Math_max2 (a b : float) : float :=
  if PrimFloat.is_nan a then a
  else if PrimFloat.is_nan b then b
  else if a <? b then b
  else if b <? a then a
  else if PrimFloat.get_sign a then b else a.

(** [Math.max(...xs)]: the fold starts from [-Infinity]. *)
Definition Math_max (xs : list float) : float :=
  foldl Math_max2 neg_infinity xs.

End JsNumber.
Import JsNumber.

(** ** Data model *)

(** The component imports its types from [types/vehicles]; the records
    below are the declarations of that file. The body of an answer of
    the backend is taken to have its declared type, and nothing more:
    a [string] is any string. *)

(** The type [FleetType], one of the two fleets. *)
Inductive FleetType := fire | police.

(** The type [TripPoint], a time in seconds from the start and a
    position. *)
Record TripPoint := mkTripPoint {
  tp_time : float;
  tp_lon : float;
  tp_lat : float
}.

(** ** Position interpolator *)

(** The body of the [for] loop of [interpolatePosition], over the
    consecutive pairs [path[i]], [path[i+1]] in path order. *)
Definition lerp (p0 p1 : TripPoint) (t : float) : float * float :=
  let ratio := (t - tp_time p0) / (tp_time p1 - tp_time p0) in
  (tp_lon p0 + (tp_lon p1 - tp_lon p0) * ratio,
   tp_lat p0 + (tp_lat p1 - tp_lat p0) * ratio).

Definition brackets (p0 p1 : TripPoint) (t : float) : bool :=
  geb t (tp_time p0) && (t <=? tp_time p1).

Fixpoint interpolate_loop (path : list TripPoint) (t : float)
  : option (float * float) :=
  match path with
  | p0 :: ((p1 :: _) as rest) =>
      if brackets p0 p1 t then Some (lerp p0 p1 t)
      else interpolate_loop rest t
  | _ => None
  end.

Definition interpolatePosition (path : list TripPoint) (t : float)
  : float * float :=
  match path with
  | [] => (0, 0)
  | first :: _ =>
      if t <=? tp_time first then (tp_lon first, tp_lat first)
      else
        let final := List.last path first in
        if geb t (tp_time final) then (tp_lon final, tp_lat final)
        else match interpolate_loop path t with
             | Some r => r
             | None => (tp_lon first, tp_lat first)
             end
  end.

(** ** Spatial grid indexer *)

Definition GRID_MIN_LAT : float := 47.48.
Definition GRID_MAX_LAT : float := 47.75.
Definition GRID_MIN_LON : float := -122.45.
Definition GRID_MAX_LON : float := -122.22.
Definition GRID_LAT_STEP : float := 0.01.
Definition GRID_LON_STEP : float := 0.01.

Definition grid_nLat : float :=
  Math_ceil ((GRID_MAX_LAT - GRID_MIN_LAT) / GRID_LAT_STEP).
Definition grid_nLon : float :=
  Math_ceil ((GRID_MAX_LON - GRID_MIN_LON) / GRID_LON_STEP).

(** [number | null] is [option float]. *)
Definition latLonToCellId (lat lon : float) : option float :=
  let nLat := grid_nLat in
  let nLon := grid_nLon in
  let i := Math_floor ((lat - GRID_MIN_LAT) / GRID_LAT_STEP) in
  let j := Math_floor ((lon - GRID_MIN_LON) / GRID_LON_STEP) in
  if (i <? 0) || (j <? 0) || geb i nLat || geb j nLon then None
  else Some (i * nLon + j).

(** ** Deployment and route orchestrator *)

(** The type [StationInput], a station of the body of a deployment
    request. *)
Record StationInput := mkStationInput {
  si_station_id : string;
  si_lat : float;
  si_lon : float;
  si_vehicles_current : float
}.

(** The type [StationDeployment], a station of a deployment response.
    [station_name] and [name] are not declared: they are the two fields
    that the component looks up on it through [as any], absent unless
    the backend sends them. *)
Record StationDeployment := mkStationDeployment {
  sd_station_id : string;
  sd_lat : float;
  sd_lon : float;
  sd_vehicles_current : float;
  sd_vehicles_target : float;
  sd_local_risk : float;
  sd_station_name : option string;
  sd_name : option string
}.

(** [StationWithFlag], as [fetchAll] builds it: the spread of a
    deployment station, with [fleet_type] and [inMove] added.
    [fleet_type] is declared a [FleetType], but what [fetchAll] stores
    there is [fleetFromBackend], a string that a cast lets through
    unchecked. *)
Record Station := mkStation {
  st_base : StationDeployment;
  st_fleet_type : string;
  st_inMove : bool
}.

Definition station_id (s : Station) : string := sd_station_id (st_base s).

(** The type [Move], a move of a deployment response. *)
Record Move := mkMove {
  from_station_id : string;
  to_station_id : string;
  num_vehicles : float;
  distance : float
}.

(** The type [DeploymentResponse]. [fleet_type] is declared
    [FleetType | string], that is any string; [fetchAll] provides for
    its absence with [??], which is [None] here. *)
Record DeploymentResponse := mkDeployment {
  dr_fleet_type : option string;
  dr_timestamp : string;
  dr_stations : list StationDeployment;
  dr_moves : list Move;
  dr_total_travel_cost : float
}.

(** A point of a route response, with the fields that [fetchAll]
    reads. *)
Record RoutePoint := mkRoutePoint {
  rp_lat : float;
  rp_lon : float;
  rp_time : float
}.

(** The body of a route response that is ok; it is taken to be well
    formed, with [points] a list. *)
Record RouteJson := mkRouteJson { points : list RoutePoint }.

(** The body of a route request. A coordinate is [undefined], and left
    out by [JSON.stringify], when the endpoint that [stationById] gave
    is not a station. *)
Record RouteRequest := mkRouteRequest {
  start_lat : option float;
  start_lon : option float;
  end_lat : option float;
  end_lon : option float
}.

(** [TripWithMeta]: the fields of the type [Trip], and the four
    optional ones that [TripWithMeta] adds. [fleet_type] is declared a
    [FleetType] and holds [fleetFromBackend], like that of a station. *)
Record Trip := mkTrip {
  trip_id : string;
  trip_fleet_type : string;
  trip_type : string;
  trip_side : string;
  trip_path : list TripPoint;
  fromStationId : option string;
  toStationId : option string;
  fromStationName : option string;
  toStationName : option string
}.

Definition SAMPLE_TRIPS : list Trip :=
  [ {| trip_id := "veh_101";
       trip_fleet_type := "fire";
       trip_type := "fire_truck";
       trip_side := "friendly";
       trip_path :=
         [ mkTripPoint 0 (-122.345) 47.6;
           mkTripPoint 60 (-122.34) 47.605;
           mkTripPoint 120 (-122.335) 47.61;
           mkTripPoint 180 (-122.33) 47.615 ];
       fromStationId := None;
       toStationId := None;
       fromStationName := None;
       toStationName := None |} ].

(** What an awaited [fetch] followed by the reading of its body can do:
    reject (the awaiting code throws), resolve with [ok] false, or
    resolve with [ok] true and a body. *)
Inductive Response (A : Type) : Type :=
| Rejected
| NotOk (status : nat)
| Ok (body : A).
Arguments Rejected {A}.
Arguments NotOk {A} status.
Arguments Ok {A} body.

(** The backend as one run of [fetchAll] meets it. A route request is
    identified by the fleet being processed and the index of its move,
    so that two requests with the same body may be answered
    differently. *)
Record Backend := mkBackend {
  optimize_deployment : FleetType -> list StationInput -> Response DeploymentResponse;
  route : FleetType -> nat -> RouteRequest -> Response RouteJson
}.

(** Exceptions inside the [try] block of [fetchAll]. *)
Inductive Outcome (A : Type) : Type :=
| Threw
| Returned (a : A).
Arguments Threw {A}.
Arguments Returned {A} a.

#[export] Instance Outcome_ret : MRet Outcome := fun A a => Returned a.
#[export] Instance Outcome_bind : MBind Outcome := fun A B k m =>
  match m with
  | Threw => Threw
  | Returned a => k a
  end.

(** [Promise.all]: every promise has been started; the result is the
    list of the values in the order of the promises, unless one
    rejected. *)
Fixpoint Promise_all {A} (ps : list (Outcome A)) : Outcome (list A) :=
  match ps with
  | [] => Returned []
  | p :: rest =>
      a ← p;
      l ← Promise_all rest;
      mret (a :: l)
  end.

(** *** The object [stationById] *)

(** [stationById] is created as [{}] and filled by assignment, so a read
    [stationById[k]] goes through its prototype chain when the object
    has no property [k] of its own. What a read can give: *)
Inductive JsValue :=
| VStation (s : StationDeployment)
| VString (v : string)
| VNumber (v : float)
| VFunction (name : string)
| VObjectPrototype.

(** Truthiness, for [!from]. *)
Definition truthy_value (v : JsValue) : bool :=
  match v with
  | VString v => negb (String.eqb v "")
  | VNumber v => negb (falsy v)
  | VStation _ | VFunction _ | VObjectPrototype => true
  end.

(** The data properties of [Object.prototype]: its methods, each a
    function whose [name] is the key, and [constructor], which is the
    function [Object]. ([__proto__] is an accessor, see below.) *)
Definition Object_prototype_methods : list string :=
  [ "hasOwnProperty"; "isPrototypeOf"; "propertyIsEnumerable"; "toLocaleString";
    "toString"; "valueOf";
    "__defineGetter__"; "__defineSetter__"; "__lookupGetter__"; "__lookupSetter__" ].

Definition Object_prototype_get (k : string) : option JsValue :=
  if String.eqb k "constructor" then Some (VFunction "Object")
  else if existsb (String.eqb k) Object_prototype_methods then Some (VFunction k)
  else None.

(** The properties of a station object, as declared. *)
Definition station_get (s : StationDeployment) (k : string) : option JsValue :=
  if String.eqb k "station_id" then Some (VString (sd_station_id s))
  else if String.eqb k "lat" then Some (VNumber (sd_lat s))
  else if String.eqb k "lon" then Some (VNumber (sd_lon s))
  else if String.eqb k "vehicles_current" then Some (VNumber (sd_vehicles_current s))
  else if String.eqb k "vehicles_target" then Some (VNumber (sd_vehicles_target s))
  else if String.eqb k "local_risk" then Some (VNumber (sd_local_risk s))
  else if String.eqb k "station_name" then VString <$> sd_station_name s
  else if String.eqb k "name" then VString <$> sd_name s
  else None.

(** The object: its own properties, and its prototype, which is
    [Object.prototype] ([None]) until an assignment to the key
    [__proto__] replaces it by a station object. *)
Record StationById := mkStationById {
  own : gmap string StationDeployment;
  proto : option StationDeployment
}.

Definition empty_object : StationById := mkStationById ∅ None.

(** [stationById[k] = s]. The key [__proto__] reaches the setter of
    [Object.prototype], which makes the station the prototype of the
    object and adds no property; any other key becomes a property of
    the object itself, the later station of an id overwriting. *)
Definition stationById_set (o : StationById) (k : string) (s : StationDeployment)
  : StationById :=
  if String.eqb k "__proto__" then mkStationById (own o) (Some s)
  else mkStationById (<[k := s]> (own o)) (proto o).

(** [stationById[k]]; [None] is [undefined]. The getter of [__proto__]
    gives the prototype of the object. *)
Definition stationById_get (o : StationById) (k : string) : option JsValue :=
  match own o !! k with
  | Some s => Some (VStation s)
  | None =>
      if String.eqb k "__proto__" then
        Some (match proto o with
              | Some s => VStation s
              | None => VObjectPrototype
              end)
      else
        match proto o with
        | Some s =>
            match station_get s k with
            | Some v => Some v
            | None => Object_prototype_get k
            end
        | None => Object_prototype_get k
        end
  end.

(** [from.lat] and [from.lon]: [undefined] on a value that is not a
    station. *)
Definition number_property (field : StationDeployment -> float) (v : JsValue)
  : option float :=
  match v with
  | VStation s => Some (field s)
  | _ => None
  end.

Record RouteEntry := mkRouteEntry {
  re_routeJson : RouteJson;
  re_move : Move;
  re_from : JsValue;
  re_to : JsValue
}.

Definition fleet_name (f : FleetType) : string :=
  match f with
  | fire => "fire"
  | police => "police"
  end.

(** [a ?? b ?? c] on the optional name fields of a station. *)
Definition station_label (s : StationDeployment) (fallback : string) : string :=
  match sd_station_name s with
  | Some n => n
  | None => match sd_name s with
            | Some n => n
            | None => fallback
            end
  end.

(** [(from as any).station_name ?? (from as any).name ?? id] on what
    [stationById] gave: a function has a [name], a string, a number and
    [Object.prototype] have neither property. *)
Definition value_label (v : JsValue) (fallback : string) : string :=
  match v with
  | VStation s => station_label s fallback
  | VFunction name => name
  | VString _ | VNumber _ | VObjectPrototype => fallback
  end.

(** The accumulators that [fetchAll] declares before its loop over the
    fleets: all three live across the whole loop. *)
Record Acc := mkAcc {
  allStations : list Station;
  allTrips : list Trip;
  activeStationIds : gset string
}.

Definition empty_acc : Acc := mkAcc [] [] ∅.

(** [deployment.moves.forEach(move => { add from; add to })]. *)
Definition add_moves (active : gset string) (moves : list Move) : gset string :=
  foldl (fun s mv => {[to_station_id mv]} ∪ ({[from_station_id mv]} ∪ s)) active moves.

(** [deployment.stations.forEach(s => { stationById[s.station_id] = s })]. *)
Definition index_stations (sts : list StationDeployment) : StationById :=
  foldl (fun o s => stationById_set o (sd_station_id s) s) empty_object sts.

(** The asynchronous callback mapped over [deployment.moves]: [null]
    for an endpoint that reads falsy or a response that is not ok. *)
Definition fetch_route (B : Backend) (fleet_type : FleetType)
    (stationById : StationById) (i : nat) (move : Move)
  : Outcome (option RouteEntry) :=
  match stationById_get stationById (from_station_id move),
        stationById_get stationById (to_station_id move) with
  | Some from, Some to =>
      if negb (truthy_value from) || negb (truthy_value to) then Returned None
      else
        match route B fleet_type i
                (mkRouteRequest (number_property sd_lat from) (number_property sd_lon from)
                                (number_property sd_lat to) (number_property sd_lon to)) with
        | Rejected => Threw
        | NotOk _ => Returned None
        | Ok routeJson => Returned (Some (mkRouteEntry routeJson move from to))
        end
  | _, _ => Returned None
  end.

Definition trip_of_entry (fleetFromBackend : string) (i : nat) (entry : RouteEntry) : Trip :=
  let move := re_move entry in
  {| trip_id :=
       fleetFromBackend +:+ "_" +:+ from_station_id move +:+ "_"
         +:+ to_station_id move +:+ "_" +:+ pretty i;
     trip_fleet_type := fleetFromBackend;
     trip_type := if String.eqb fleetFromBackend "fire" then "fire_truck" else "police_car";
     trip_side := "friendly";
     trip_path :=
       map (fun p => {| tp_time := rp_time p; tp_lon := rp_lon p; tp_lat := rp_lat p |})
           (points (re_routeJson entry));
     fromStationId := Some (from_station_id move);
     toStationId := Some (to_station_id move);
     fromStationName := Some (value_label (re_from entry) (from_station_id move));
     toStationName := Some (value_label (re_to entry) (to_station_id move)) |}.

(** The loop over [routeResponses]: [null] entries are skipped, the
    index [i] of the entry goes into the id. *)
Definition assemble_trips (fleetFromBackend : string)
    (routeResponses : list (option RouteEntry)) : list Trip :=
  concat (imap (fun i entry =>
                  match entry with
                  | None => []
                  | Some e => [trip_of_entry fleetFromBackend i e]
                  end) routeResponses).

Definition flag_stations (fleetFromBackend : string) (active : gset string)
    (sts : list StationDeployment) : list Station :=
  map (fun s => mkStation s fleetFromBackend (bool_decide (sd_station_id s ∈ active))) sts.

(** One iteration of the loop over [fleetConfigs]. *)
Definition process_fleet (B : Backend) (acc : Acc)
    (config : FleetType * list StationInput) : Outcome Acc :=
  let '(fleet_type, inputStations) := config in
  match optimize_deployment B fleet_type inputStations with
  | Rejected => Threw
  | NotOk _ => Returned acc
  | Ok deployment =>
      let fleetFromBackend := default (fleet_name fleet_type) (dr_fleet_type deployment) in
      let active := add_moves (activeStationIds acc) (dr_moves deployment) in
      let stationsWithFleet := flag_stations fleetFromBackend active (dr_stations deployment) in
      let stationById := index_stations (dr_stations deployment) in
      routeResponses ←
        Promise_all (imap (fetch_route B fleet_type stationById) (dr_moves deployment));
      mret {| allStations := allStations acc ++ stationsWithFleet;
              allTrips := allTrips acc ++ assemble_trips fleetFromBackend routeResponses;
              activeStationIds := active |}
  end.

Fixpoint process_fleets (B : Backend) (acc : Acc)
    (configs : list (FleetType * list StationInput)) : Outcome Acc :=
  match configs with
  | [] => Returned acc
  | config :: rest =>
      acc' ← process_fleet B acc config;
      process_fleets B acc' rest
  end.

(** The three state variables that [fetchAll] sets. *)
Record Scene := mkScene {
  stations : list Station;
  trips : list Trip;
  currentTime : float
}.

Section Orchestrator.

(** The default station inputs of [data/stations], whose contents are
    missing: they are parameters of the orchestrator. *)
Variables FIRE_STATION_INPUTS POLICE_STATION_INPUTS : list StationInput.

Definition fleetConfigs (fireStations policeStations : option (list StationInput))
  : list (FleetType * list StationInput) :=
  [ (fire, default FIRE_STATION_INPUTS fireStations);
    (police, default POLICE_STATION_INPUTS policeStations) ].

Definition run_fleets (B : Backend)
    (fireStations policeStations : option (list StationInput)) : Outcome Acc :=
  process_fleets B empty_acc (fleetConfigs fireStations policeStations).

Definition fetchAll (B : Backend)
    (fireStations policeStations : option (list StationInput)) : Scene :=
  match run_fleets B fireStations policeStations with
  | Returned acc =>
      {| stations := allStations acc;
         trips := if (length (allTrips acc) =? 0)%nat then SAMPLE_TRIPS else allTrips acc;
         currentTime := 0 |}
  | Threw =>
      {| stations := []; trips := SAMPLE_TRIPS; currentTime := 0 |}
  end.

End Orchestrator.

(** ** Context snapshot: the deployment part of [ChatContext] *)

Record MoveContext := mkMoveContext {
  mc_from_station_id : option string;
  mc_to_station_id : option string;
  mc_fleet_type : string
}.

(** Truthiness of an optional string: [undefined] and the empty string
    are falsy. *)
Definition truthy (s : option string) : bool :=
  match s with
  | Some s => negb (String.eqb s "")
  | None => false
  end.

(** [trips] is [null] until the first [fetchAll] has finished. *)
Definition context_moves (trips : option (list Trip)) : list MoveContext :=
  take 20
    (List.filter (fun m => truthy (mc_from_station_id m) && truthy (mc_to_station_id m))
       (map (fun t => mkMoveContext (fromStationId t) (toStationId t) (trip_fleet_type t))
            (default [] trips))).

Definition context_station_ids (sts : list Station) : list string :=
  List.filter (fun i => negb (String.eqb i "")) (map station_id sts).

Definition context_moving_station_ids (sts : list Station) : list string :=
  List.filter (fun i => negb (String.eqb i ""))
    (map station_id (List.filter st_inMove sts)).

(** ** Playback clock *)

(** [t.path[t.path.length - 1]?.time ?? 0]. *)
Definition terminal_time (t : Trip) : float :=
  match last (trip_path t) with
  | Some p => tp_time p
  | None => 0
  end.

Definition maxTime (trips : option (list Trip)) : float :=
  match trips with
  | None => 0
  | Some [] => 0
  | Some ts => Math_max (map terminal_time ts)
  end.

Record Clock := mkClock {
  clk_time : float;
  playing : bool;
  playbackSpeed : float
}.

(** The updater passed to [setCurrentTime] by the interval callback. *)
Definition advance (maxTime playbackSpeed prev : float) : float :=
  if falsy maxTime then prev
  else
    let next := prev + playbackSpeed in
    if geb next maxTime then 0 else next.

(** One period of the interval. The effect installs no interval when
    the clock is paused or [maxTime === 0]. *)
Definition tick (maxTime : float) (c : Clock) : Clock :=
  if negb (playing c) || (maxTime =? 0) then c
  else mkClock (advance maxTime (playbackSpeed c) (clk_time c)) (playing c) (playbackSpeed c).

(** The initial state of the component. *)
Definition initial_clock : Clock := mkClock 0 true 1.

(** The [onChange] of the scrub control. *)
Definition seek (value : float) (c : Clock) : Clock :=
  mkClock value false (playbackSpeed c).

(** What can happen to the clock while the trips stay the same. *)
Inductive ClockEvent :=
| Tick
| TogglePlaying
| SetSpeed (value : float)
| Seek (value : float).

Definition clock_step (maxTime : float) (c : Clock) (e : ClockEvent) : Clock :=
  match e with
  | Tick => tick maxTime c
  | TogglePlaying => mkClock (clk_time c) (negb (playing c)) (playbackSpeed c)
  | SetSpeed value => mkClock (clk_time c) (playing c) value
  | Seek value => seek value c
  end.

Definition run_clock (maxTime : float) (c : Clock) (events : list ClockEvent) : Clock :=
  foldl (clock_step maxTime) c events.

(** ** Selection state *)

(** The type [GridCell] of [types/vehicles]. *)
Record GridCell := mkGridCell {
  gc_id : string;
  cellId : float;
  minLat : float;
  maxLat : float;
  minLon : float;
  maxLon : float;
  risk : float
}.

Record Selection := mkSelection {
  selectedTripId : option string;
  selectedStationId : option string;
  selectedCellId : option float
}.

Definition initial_selection : Selection := mkSelection None None None.

(** [info.object] of a click: the object of the topmost pickable layer
    under the pointer, if any. *)
Inductive Picked :=
| PickedCell (cell : GridCell)
| PickedTrip (trip : Trip)
| PickedStation (station : Station).

(** The [onClick] of the layer that owns the picked object. *)
Definition layer_onClick (info : option Picked) (s : Selection) : Selection :=
  match info with
  | None => s
  | Some (PickedCell cell) => mkSelection None None (Some (cellId cell))
  | Some (PickedTrip trip) => mkSelection (Some (trip_id trip)) None None
  | Some (PickedStation station) => mkSelection None (Some (station_id station)) None
  end.

(** The [onClick] of the [DeckGL] element. *)
Definition deck_onClick (info : option Picked) (s : Selection) : Selection :=
  match info with
  | None => mkSelection None None None
  | Some _ => s
  end.

Inductive SelectionEvent :=
| Click (info : option Picked)
| ClosePopup.

(** A click runs the handler of the picked layer, then that of the
    [DeckGL] element; the close button of the popup clears all three. *)
Definition select (s : Selection) (e : SelectionEvent) : Selection :=
  match e with
  | Click info => deck_onClick info (layer_onClick info s)
  | ClosePopup => mkSelection None None None
  end.

Definition is_set {A} (o : option A) : nat :=
  match o with
  | Some _ => 1
  | None => 0
  end.

Definition selected_count (s : Selection) : nat :=
  (is_set (selectedTripId s) + is_set (selectedStationId s) + is_set (selectedCellId s))%nat.

(** ** Colours *)

(** [riskToColor]: red, green, blue and alpha of a grid cell. *)
Definition riskToColor (risk : float) : N * N * N * N :=
  if risk <? 0.15 then (0, 0, 0, 0)%N
  else if risk <? 0.4 then (255, 255, 0, 120)%N
  else if risk <? 0.7 then (255, 165, 0, 170)%N
  else (255, 0, 0, 210)%N.

(** [fleetPathColor], on the [fleet_type] of a trip. *)
Definition fleetPathColor (fleet : string) : N * N * N :=
  if String.eqb fleet "fire" then (255, 120, 120)%N else (80, 160, 255)%N.

Definition alpha (c : N * N * N * N) : N := snd c.

(** ** Risk grid loader *)

(** [Math.min], like [Math.max]: NaN if either is NaN, [-0] below [+0],
    and the fold starts from [+Infinity]. *)
Definition Math_min2 (a b : float) : float :=
  if PrimFloat.is_nan a then a
  else if PrimFloat.is_nan b then b
  else if a <? b then a
  else if b <? a then b
  else if PrimFloat.get_sign a then a else b.

Definition Math_min (xs : list float) : float :=
  foldl Math_min2 infinity xs.

(** A row of the answer of [/risk/latest]. *)
Record RiskApiCell := mkRiskApiCell {
  cell_id : float;
  risk_score : float;
  ra_lat : float;
  ra_lon : float
}.

Section RiskLoader.

(** [String(n)] for a number, a built-in that the loader only passes
    through. *)
Variable Number_toString : float -> string.

(** The callback of [data.map] in [fetchRisk]. *)
Definition cell_of_row (row : RiskApiCell) : GridCell :=
  let halfLat := GRID_LAT_STEP / 2 in
  let halfLon := GRID_LON_STEP / 2 in
  let lat := ra_lat row in
  let lon := ra_lon row in
  {| gc_id := Number_toString (cell_id row);
     cellId := cell_id row;
     minLat := Math_max [lat - halfLat; GRID_MIN_LAT];
     maxLat := Math_min [lat + halfLat; GRID_MAX_LAT];
     minLon := Math_max [lon - halfLon; GRID_MIN_LON];
     maxLon := Math_min [lon + halfLon; GRID_MAX_LON];
     risk := risk_score row |}.

(** [fetchRisk]: the grid cells that it sets. A response that is not ok
    throws inside the [try] block, like a rejected request. *)
Definition fetchRisk (res : Response (list RiskApiCell)) : list GridCell :=
  match res with
  | Ok data => map cell_of_row data
  | NotOk _ => []
  | Rejected => []
  end.

End RiskLoader.

(** ** Resolution of the selection *)

(** [!id] for an identifier that is a string or [null]. *)
Definition no_id (id : option string) : bool := negb (truthy id).

(** The three [useMemo] lookups: the selected identifier is resolved
    against the current lists on every read. *)
Definition selectedTrip (trips : option (list Trip)) (tripId : option string)
  : option Trip :=
  match trips, tripId with
  | Some ts, Some id =>
      if no_id (Some id) then None
      else List.find (fun t => String.eqb (trip_id t) id) ts
  | _, _ => None
  end.

Definition selectedStation (sts : list Station) (stationId : option string)
  : option Station :=
  match stationId with
  | Some id =>
      if no_id (Some id) then None
      else List.find (fun s => String.eqb (station_id s) id) sts
  | None => None
  end.

Definition selectedCell (gridCells : list GridCell) (cell : option float)
  : option GridCell :=
  match cell with
  | Some id => List.find (fun c => cellId c =? id) gridCells
  | None => None
  end.

(** ** Context snapshot *)

Record ViewState := mkViewState {
  longitude : float;
  latitude : float;
  zoom : float;
  pitch : float;
  bearing : float
}.

Record StationContext := mkStationContext {
  sc_station_id : string;
  sc_name : option string;
  sc_fleet_type : string;
  sc_lat : float;
  sc_lon : float;
  sc_in_move : bool
}.

Record TripContext := mkTripContext {
  tc_id : string;
  tc_fleet_type : string;
  tc_from_station_id : option string;
  tc_to_station_id : option string
}.

Record ChatContext := mkChatContext {
  map_center : float * float;
  map_zoom : float;
  map_pitch : float;
  map_bearing : float;
  focused_cell_id : option float;
  selected_cell_id : option float;
  selected_station : option StationContext;
  selected_trip : option TripContext;
  station_ids : list string;
  moving_station_ids : list string;
  moves : list MoveContext
}.

(** The context that the effect hands to [onContextChange]. *)
Definition chatContext (viewState : ViewState) (sel : Selection)
    (sts : list Station) (trips : option (list Trip)) : ChatContext :=
  {| map_center := (latitude viewState, longitude viewState);
     map_zoom := zoom viewState;
     map_pitch := pitch viewState;
     map_bearing := bearing viewState;
     focused_cell_id :=
       match selectedCellId sel with
       | Some c => Some c
       | None => latLonToCellId (latitude viewState) (longitude viewState)
       end;
     selected_cell_id := selectedCellId sel;
     selected_station :=
       option_map
         (fun s => {| sc_station_id := station_id s;
                      sc_name := match sd_station_name (st_base s) with
                                 | Some n => Some n
                                 | None => sd_name (st_base s)
                                 end;
                      sc_fleet_type := st_fleet_type s;
                      sc_lat := sd_lat (st_base s);
                      sc_lon := sd_lon (st_base s);
                      sc_in_move := st_inMove s |})
         (selectedStation sts (selectedStationId sel));
     selected_trip :=
       option_map
         (fun t => mkTripContext (trip_id t) (trip_fleet_type t)
                     (fromStationId t) (toStationId t))
         (selectedTrip trips (selectedTripId sel));
     station_ids := context_station_ids sts;
     moving_station_ids := context_moving_station_ids sts;
     moves := context_moves trips |}.

(** ** Layer composition *)

Module Layers.

Inductive LayerKey := heatmap | vehicles | vehicleIcons | stations.

Definition LayerKey_eqb (a b : LayerKey) : bool :=
  match a, b with
  | heatmap, heatmap | vehicles, vehicles
  | vehicleIcons, vehicleIcons | stations, stations => true
  | _, _ => false
  end.

Record LayerConfig := mkLayerConfig {
  key : LayerKey;
  label : string;
  visible : bool
}.

Definition initial_layerConfig : list LayerConfig :=
  [ mkLayerConfig heatmap "Risk grid" true;
    mkLayerConfig vehicles "Vehicle paths" true;
    mkLayerConfig vehicleIcons "Vehicle icons" true;
    mkLayerConfig stations "Stations" true ].

Inductive Direction := up | down.

(** [a.splice(start, 1)] and [a.splice(start, 0, item)] for a start
    within the array or at its end. *)
Definition splice_out {A} (start : nat) (a : list A) : list A := delete start a.
Definition splice_in {A} (start : nat) (item : A) (a : list A) : list A :=
  take start a ++ item :: drop start a.

(** The updater that [moveLayer] passes to [setLayerConfig]. An entry of
    the result is [None] where the array holds [undefined]: [next[index]]
    is [undefined] when [index] is not an index of the array. *)
Definition moveLayer (index : nat) (dir : Direction) (prev : list LayerConfig)
  : list (option LayerConfig) :=
  let next := Some <$> prev in
  let newIndex := match dir with
                  | up => (Z.of_nat index - 1)%Z
                  | down => (Z.of_nat index + 1)%Z
                  end in
  if ((newIndex <? 0) || (Z.of_nat (length next) <=? newIndex))%Z then Some <$> prev
  else
    let item := mjoin (next !! index) in
    splice_in (Z.to_nat newIndex) item (splice_out index next).

Definition toggleLayerVisibility (k : LayerKey) (prev : list LayerConfig)
  : list LayerConfig :=
  map (fun l => if LayerKey_eqb (key l) k
                then mkLayerConfig (key l) (label l) (negb (visible l))
                else l) prev.

(** The layer objects, each stood for by its [id]. *)
Definition registry (k : LayerKey) : list string :=
  match k with
  | heatmap => ["risk-grid"]
  | vehicles => ["trips"]
  | vehicleIcons => ["vehicle-icons"]
  | stations => ["station-icons"]
  end.

(** The [layers] handed to [DeckGL]: later entries paint on top. *)
Definition layers (trips : option (list Trip)) (layerConfig : list LayerConfig)
  : list string :=
  match trips with
  | None => []
  | Some _ =>
      flat_map (fun cfg => if visible cfg then registry (key cfg) else []) layerConfig
  end.

(** What the layer panel can do to the list: its buttons sit on the rows
    of the list, so that [index] is an index of it. *)
Inductive layer_step : list LayerConfig -> list LayerConfig -> Prop :=
| step_move (index : nat) (dir : Direction) (prev next : list LayerConfig) :
    (index < length prev)%nat ->
    moveLayer index dir prev = Some <$> next ->
    layer_step prev next
| step_toggle (k : LayerKey) (prev : list LayerConfig) :
    layer_step prev (toggleLayerVisibility k prev).

End Layers.

(** ** Navigation of the home page *)

Module Home.

Inductive PanelKey := vehicles | stations.
Inductive NavKey := panel (k : PanelKey) | chat.

Record Nav := mkNav {
  activePanel : PanelKey;
  chatOpen : bool
}.

Definition initial_nav : Nav := mkNav vehicles false.

Definition handleNavClick (k : NavKey) (s : Nav) : Nav :=
  match k with
  | chat => mkNav vehicles (negb (chatOpen s))
  | panel p => mkNav p false
  end.

(** The [onClose] of the chat panel. *)
Definition closeChat (s : Nav) : Nav := mkNav (activePanel s) false.

Inductive NavEvent := NavClick (k : NavKey) | CloseChat.

Definition nav_step (s : Nav) (e : NavEvent) : Nav :=
  match e with
  | NavClick k => handleNavClick k s
  | CloseChat => closeChat s
  end.

(** The chat panel is on screen when the vehicles panel is the active
    one and the chat is open. *)
Definition chat_shown (s : Nav) : bool :=
  match activePanel s with
  | vehicles => chatOpen s
  | stations => false
  end.

End Home.

(** ** Station editor *)

Module StationEditor.

(** The station objects live in a store; an array of stations holds
    references to them, so that two arrays can hold the same object. *)
Abbreviation ref := positive (only parsing).
Abbreviation Store := (gmap positive StationInput) (only parsing).
Abbreviation StationArray := (list positive) (only parsing).

(** What an array reads as: [None] for a reference without an object. *)
Definition read (h : Store) (a : StationArray) : list (option StationInput) :=
  (fun r => h !! r) <$> a.

Inductive Field := station_id_field | lat_field | lon_field | vehicles_current_field.

Section Editor.

(** [Number(value)] for the text of an input element, a built-in that
    the editor only passes through. *)
Variable Number_of_string : string -> float.

(** [(current as any)[field] = ...]. *)
Definition assign (field : Field) (value : string) (current : StationInput)
  : StationInput :=
  match field with
  | station_id_field =>
      mkStationInput value (si_lat current) (si_lon current) (si_vehicles_current current)
  | lat_field =>
      mkStationInput (si_station_id current) (Number_of_string value) (si_lon current)
        (si_vehicles_current current)
  | lon_field =>
      mkStationInput (si_station_id current) (si_lat current) (Number_of_string value)
        (si_vehicles_current current)
  | vehicles_current_field =>
      mkStationInput (si_station_id current) (si_lat current) (si_lon current)
        (Number_of_string value)
  end.

(** [updateField]: the store after the call, and the array handed to
    [onChange], if it is called. [next] is a copy of the array, not of
    its objects. *)
Definition updateField (h : Store) (stations : StationArray)
    (index : nat) (field : Field) (value : string)
  : Store * option StationArray :=
  let next := stations in
  match next !! index with
  | None => (h, None)
  | Some current => (alter (assign field value) current h, Some next)
  end.

End Editor.

Definition new_station : StationInput := mkStationInput "" 47.6 (-122.33) 1.

(** [addRow]: a new object at the end of a new array. *)
Definition addRow (h : Store) (stations : StationArray) : Store * StationArray :=
  let r := fresh (dom h) in
  (<[r := new_station]> h, stations ++ [r]).

(** [stations.filter((_, i) => i !== index)]. *)
Fixpoint filter_index {A} (keep : nat -> bool) (i : nat) (a : list A) : list A :=
  match a with
  | [] => []
  | x :: rest =>
      if keep i then x :: filter_index keep (S i) rest
      else filter_index keep (S i) rest
  end.

Definition removeRow (index : nat) (stations : StationArray) : StationArray :=
  filter_index (fun i => negb (Nat.eqb i index)) 0 stations.

End StationEditor.

(** ** Chat stream *)

Module Chat.
Import Stdlib.Strings.Ascii.

Definition is_newline (c : ascii) : bool := Ascii.eqb c "010"%char.
Definition is_return (c : ascii) : bool := Ascii.eqb c "013"%char.

Definition cons_head (c : ascii) (parts : list string) : list string :=
  match parts with
  | p :: ps => String c p :: ps
  | [] => [String c EmptyString]
  end.

(** [s.split("\n\n")]: the separators are found from left to right. *)
Fixpoint split_events (s : string) : list string :=
  match s with
  | EmptyString => [EmptyString]
  | String c rest =>
      match rest with
      | String c' rest' =>
          if is_newline c && is_newline c' then EmptyString :: split_events rest'
          else cons_head c (split_events rest)
      | EmptyString => [String c EmptyString]
      end
  end.

(** [part.split("\n")]. *)
Fixpoint split_lines (s : string) : list string :=
  match s with
  | EmptyString => [EmptyString]
  | String c rest =>
      if is_newline c then EmptyString :: split_lines rest
      else cons_head c (split_lines rest)
  end.

(** [rawLine.replace(/\r/g, "")]. *)
Fixpoint remove_returns (s : string) : string :=
  match s with
  | EmptyString => EmptyString
  | String c rest =>
      if is_return c then remove_returns rest else String c (remove_returns rest)
  end.

(** [line.slice(5)]. *)
Fixpoint slice (n : nat) (s : string) : string :=
  match n, s with
  | O, _ => s
  | S k, String _ rest => slice k rest
  | S _, EmptyString => EmptyString
  end.

(** The loop over the lines of one event: the text with the chunks of
    its [data:] lines added, and whether the loop was left at a
    [[DONE]] line. *)
Fixpoint read_lines (lines : list string) (assistantText : string) : string * bool :=
  match lines with
  | [] => (assistantText, false)
  | rawLine :: rest =>
      let line := remove_returns rawLine in
      if negb (String.prefix "data:" line) then read_lines rest assistantText
      else
        let chunk := slice 5 line in
        if String.eqb chunk "[DONE]" || String.eqb chunk " [DONE]" then (assistantText, true)
        else if String.eqb chunk "" then read_lines rest assistantText
        else read_lines rest (assistantText +:+ chunk)
  end.

Record Stream := mkStream {
  buffer : string;
  assistantText : string
}.

(** The loop over the events that a read has completed. *)
Fixpoint read_events (parts : list string) (st : Stream) : Stream :=
  match parts with
  | [] => st
  | part :: rest =>
      let '(text, done) := read_lines (split_lines part) (assistantText st) in
      read_events rest (mkStream (if done then EmptyString else buffer st) text)
  end.

(** One turn of the [while] loop, for the text that the decoder has
    made of the bytes read: the last part stays in the buffer. *)
Definition read_chunk (st : Stream) (decoded : string) : Stream :=
  let parts := split_events (buffer st +:+ decoded) in
  read_events (removelast parts) (mkStream (List.last parts EmptyString) (assistantText st)).

(** An event with a [[DONE]] line. *)
Definition has_done (part : string) : bool :=
  snd (read_lines (split_lines part) EmptyString).

End Chat.

(** ** Vocabulary of the properties *)

(** The point times of a path are numbers and increase strictly along
    the path. (Between two points [<] already excludes NaN.) *)
Fixpoint increasing_times (path : list TripPoint) : bool :=
  match path with
  | [] => true
  | p0 :: rest =>
      match rest with
      | [] => negb (PrimFloat.is_nan (tp_time p0))
      | p1 :: _ => (tp_time p0 <? tp_time p1) && increasing_times rest
      end
  end.

(** The station ids that the moves of a deployment mention. *)
Definition move_endpoints (moves : list Move) : list string :=
  flat_map (fun mv => [from_station_id mv; to_station_id mv]) moves.

(** The moves and stations that the deployment request of a fleet
    brought back: none when the request did not succeed. *)
Definition returned_moves (B : Backend) (fleet_type : FleetType)
    (inputs : list StationInput) : list Move :=
  match optimize_deployment B fleet_type inputs with
  | Ok d => dr_moves d
  | _ => []
  end.

Definition returned_stations (B : Backend) (fleet_type : FleetType)
    (inputs : list StationInput) : list StationDeployment :=
  match optimize_deployment B fleet_type inputs with
  | Ok d => dr_stations d
  | _ => []
  end.

(** The station list that [fleetConfigs] sends for a fleet. *)
Definition fleet_inputs (FIRE_STATION_INPUTS POLICE_STATION_INPUTS : list StationInput)
    (fireStations policeStations : option (list StationInput)) (f : FleetType)
  : list StationInput :=
  match f with
  | fire => default FIRE_STATION_INPUTS fireStations
  | police => default POLICE_STATION_INPUTS policeStations
  end.

(** ** Scenarios *)

Module Scenario.

Definition FS1 : StationDeployment :=
  mkStationDeployment "FS1" 47.60 (-122.33) 2 2 0.5 None None.
Definition FS2 : StationDeployment :=
  mkStationDeployment "FS2" 47.62 (-122.35) 1 1 0.25 None None.
Definition PS1 : StationDeployment :=
  mkStationDeployment "PS1" 47.61 (-122.32) 3 3 0.5 None None.

(** The fire request is answered with a status that is not ok; the
    police deployment has one station and recommends no move. *)
Definition police_only_quiet : Backend :=
  {| optimize_deployment := fun f _ =>
       match f with
       | fire => NotOk 500
       | police => Ok (mkDeployment (Some "police") "2024-05-01T12:00:00Z" [PS1] [] 0)
       end;
     route := fun _ _ _ => NotOk 404 |}.

(** The fire deployment moves FS1 to FS2 and the route comes back with
    an empty list of points; the police request is not ok. *)
Definition empty_route : Backend :=
  {| optimize_deployment := fun f _ =>
       match f with
       | fire => Ok (mkDeployment (Some "fire") "2024-05-01T12:00:00Z" [FS1; FS2] [mkMove "FS1" "FS2" 1 2.5] 2.5)
       | police => NotOk 503
       end;
     route := fun _ _ _ => Ok (mkRouteJson []) |}.

(** The single station FS1, a deployment whose only move is FS1 to FS1,
    and a route service that answers it. *)
Definition FS1_input : StationInput := mkStationInput "FS1" 47.60 (-122.33) 2.

Definition self_move_route : RouteJson :=
  mkRouteJson [mkRoutePoint 47.60 (-122.33) 0; mkRoutePoint 47.60 (-122.33) 30].

Definition self_move (route_response : Response RouteJson) : Backend :=
  {| optimize_deployment := fun f _ =>
       match f with
       | fire => Ok (mkDeployment (Some "fire") "2024-05-01T12:00:00Z" [FS1] [mkMove "FS1" "FS1" 1 0] 0)
       | police => Ok (mkDeployment (Some "police") "2024-05-01T12:00:00Z" [] [] 0)
       end;
     route := fun _ _ _ => route_response |}.

(** The two fleets use the same station id [S1]: the fire deployment
    moves S1 to S2, the police deployment recommends no move. *)
Definition S1_fire : StationDeployment :=
  mkStationDeployment "S1" 47.60 (-122.33) 2 1 0.5 None None.
Definition S2_fire : StationDeployment :=
  mkStationDeployment "S2" 47.62 (-122.35) 1 2 0.75 None None.
Definition S1_police : StationDeployment :=
  mkStationDeployment "S1" 47.61 (-122.32) 3 3 0.5 None None.

Definition shared_station_id : Backend :=
  {| optimize_deployment := fun f _ =>
       match f with
       | fire => Ok (mkDeployment (Some "fire") "2024-05-01T12:00:00Z" [S1_fire; S2_fire] [mkMove "S1" "S2" 1 2.5] 2.5)
       | police => Ok (mkDeployment (Some "police") "2024-05-01T12:00:00Z" [S1_police] [] 0)
       end;
     route := fun _ _ _ => NotOk 502 |}.

(** The same with the two deployments exchanged: the police deployment
    moves S1 to S2, the fire deployment has the one station S1 and
    recommends no move. *)
Definition S2_police : StationDeployment :=
  mkStationDeployment "S2" 47.63 (-122.31) 1 2 0.75 None None.

Definition shared_station_id_exchanged : Backend :=
  {| optimize_deployment := fun f _ =>
       match f with
       | fire => Ok (mkDeployment (Some "fire") "2024-05-01T12:00:00Z" [S1_fire] [] 0)
       | police => Ok (mkDeployment (Some "police") "2024-05-01T12:00:00Z"
                         [S1_police; S2_police] [mkMove "S1" "S2" 1 2.5] 2.5)
       end;
     route := fun _ _ _ => NotOk 502 |}.

(** The fire deployment moves a vehicle from [constructor], which is no
    station of the deployment, to FS2, and the route service answers. *)
Definition inherited_endpoint : Backend :=
  {| optimize_deployment := fun f _ =>
       match f with
       | fire => Ok (mkDeployment (Some "fire") "2024-05-01T12:00:00Z" [FS2]
                       [mkMove "constructor" "FS2" 1 2.5] 2.5)
       | police => NotOk 503
       end;
     route := fun _ _ _ => Ok self_move_route |}.

(** Both fleets move a vehicle, and the route service answers. *)
Definition both_fleets_move : Backend :=
  {| optimize_deployment := fun f _ =>
       match f with
       | fire => Ok (mkDeployment (Some "fire") "2024-05-01T12:00:00Z" [FS1; FS2]
                       [mkMove "FS1" "FS2" 1 2.5; mkMove "FS2" "FS1" 1 2.5] 5)
       | police => Ok (mkDeployment None "2024-05-01T12:00:00Z" [PS1; FS2]
                         [mkMove "PS1" "FS2" 2 1.5] 3)
       end;
     route := fun _ _ _ => Ok self_move_route |}.

(** The two deployments name their fleets [x] and [x_y]. *)
Definition y_A : StationDeployment :=
  mkStationDeployment "y_A" 47.60 (-122.33) 2 1 0.5 None None.
Definition st_A : StationDeployment :=
  mkStationDeployment "A" 47.61 (-122.32) 3 2 0.5 None None.
Definition st_B : StationDeployment :=
  mkStationDeployment "B" 47.62 (-122.35) 1 2 0.75 None None.

Definition nested_fleet_names : Backend :=
  {| optimize_deployment := fun f _ =>
       match f with
       | fire => Ok (mkDeployment (Some "x") "2024-05-01T12:00:00Z" [y_A; st_B]
                       [mkMove "y_A" "B" 1 2.5] 2.5)
       | police => Ok (mkDeployment (Some "x_y") "2024-05-01T12:00:00Z" [st_A; st_B]
                         [mkMove "A" "B" 1 2.5] 2.5)
       end;
     route := fun _ _ _ => Ok self_move_route |}.

(** The path of the built-in trip. *)
Definition sample_path : list TripPoint :=
  [ mkTripPoint 0 (-122.345) 47.6;
    mkTripPoint 60 (-122.34) 47.605;
    mkTripPoint 120 (-122.335) 47.61;
    mkTripPoint 180 (-122.33) 47.615 ].

End Scenario.

(** An event that is not a seek beyond [maxTime]: the scrub control
    ranges from [0] to [Math.max(maxTime, 1)], which is [maxTime] as
    soon as the trips last a second. *)
Definition within_maxTime (maxTime : float) (e : ClockEvent) : bool :=
  match e with
  | Seek value => negb (gtb value maxTime)
  | _ => true
  end.

(** The fleet that the trips and stations of a deployment are given:
    the one that the response names, else the one of the request. *)
Definition fleet_from_backend (B : Backend) (fleet_type : FleetType)
    (inputs : list StationInput) : string :=
  match optimize_deployment B fleet_type inputs with
  | Ok d => default (fleet_name fleet_type) (dr_fleet_type d)
  | _ => fleet_name fleet_type
  end.

(** The two station ids of a trip and of a move. *)
Definition trip_endpoints (t : Trip) : option string * option string :=
  (fromStationId t, toStationId t).

Definition move_pair (m : Move) : option string * option string :=
  (Some (from_station_id m), Some (to_station_id m)).

(** A station id is known to a deployment when one of its stations has it. *)
Definition known_station (sts : list StationDeployment) (id : option string) : Prop :=
  exists s, In s sts /\ id = Some (sd_station_id s).

(** The keys that the [stationById] of a deployment may answer without
    a station of that id: [__proto__], the properties of
    [Object.prototype], and, when a station of the deployment is called
    [__proto__] and so becomes the prototype of the object, the
    declared properties of a station. *)
Definition station_properties : list string :=
  [ "station_id"; "lat"; "lon"; "vehicles_current"; "vehicles_target"; "local_risk";
    "station_name"; "name" ].

Definition inherited_key (sts : list StationDeployment) (k : string) : bool :=
  String.eqb k "__proto__" || String.eqb k "constructor"
  || existsb (String.eqb k) Object_prototype_methods
  || (existsb (fun s => String.eqb (sd_station_id s) "__proto__") sts
      && existsb (String.eqb k) station_properties).

Definition inherited_name (sts : list StationDeployment) (id : option string) : Prop :=
  exists k, id = Some k /\ inherited_key sts k = true.

(** What the station id of a trip can be: the id of a station of the
    deployment, or a key that [stationById] inherits. *)
Definition endpoint_of (sts : list StationDeployment) (id : option string) : Prop :=
  known_station sts id \/ inherited_name sts id.

(** Neither text begins the other. *)
Definition prefix_free (a b : string) : bool :=
  negb (String.prefix a b) && negb (String.prefix b a).

(** * Properties *)

(** ** The order of JavaScript numbers *)

Module NumberOrder.

Lemma SFcompare_rank (a b : spec_float) :
  SFcompare a b =
  match sf_rank a, sf_rank b with
  | Some x, Some y => Some (lex3 x y)
  | _, _ => None
  end.
Proof.
  destruct a as [[]|[]| |[] m1 e1], b as [[]|[]| |[] m2 e2]; try reflexivity.
  cbn [SFcompare sf_rank lex3]. cbn [Z.compare Pos.compare].
  rewrite Z.compare_opp, (Z.compare_antisym e1 e2).
  destruct (e1 ?= e2)%Z; reflexivity.
Qed.

Lemma lex3_Lt (a b : Z * Z * Z) : lex3 a b = Lt <-> lt3 a b.
Proof.
  destruct a as [[a1 a2] a3], b as [[b1 b2] b3]. unfold lex3, lt3.
  destruct (Z.compare_spec a1 b1), (Z.compare_spec a2 b2), (Z.compare_spec a3 b3);
    split; intros; try discriminate; try reflexivity; lia.
Qed.

Lemma lex3_Eq (a b : Z * Z * Z) : lex3 a b = Eq <-> a = b.
Proof.
  destruct a as [[a1 a2] a3], b as [[b1 b2] b3]. unfold lex3.
  destruct (Z.compare_spec a1 b1), (Z.compare_spec a2 b2), (Z.compare_spec a3 b3);
    split; intros H'; try discriminate; try (subst; reflexivity);
    injection H' as -> -> ->; lia.
Qed.

Lemma lt3_irrefl (a : Z * Z * Z) : ~ lt3 a a.
Proof. destruct a as [[a1 a2] a3]. unfold lt3. lia. Qed.

Lemma lt3_trans (a b c : Z * Z * Z) : lt3 a b -> lt3 b c -> lt3 a c.
Proof.
  destruct a as [[a1 a2] a3], b as [[b1 b2] b3], c as [[c1 c2] c3].
  unfold lt3. lia.
Qed.

Lemma lt3_total (a b : Z * Z * Z) : lt3 a b \/ a = b \/ lt3 b a.
Proof.
  destruct a as [[a1 a2] a3], b as [[b1 b2] b3]. unfold lt3.
  destruct (Z.lt_total a1 b1) as [|[|]], (Z.lt_total a2 b2) as [|[|]],
    (Z.lt_total a3 b3) as [|[|]]; subst; auto; try (left; lia); right; right; lia.
Qed.

(** The three comparisons of numbers in terms of ranks. *)
Lemma ltb_rank (x y : float) :
  (x <? y) = true <-> exists a b, rank x = Some a /\ rank y = Some b /\ lt3 a b.
Proof.
  rewrite FloatAxioms.ltb_spec. unfold SFltb, rank. rewrite SFcompare_rank.
  destruct (sf_rank (Prim2SF x)) as [a|], (sf_rank (Prim2SF y)) as [b|];
    try (split; [discriminate | intros (? & ? & ? & ? & ?); discriminate]).
  split.
  - destruct (lex3 a b) eqn:E; try discriminate. intros _.
    exists a, b. rewrite <- lex3_Lt. auto.
  - intros (a' & b' & [= <-] & [= <-] & H). apply lex3_Lt in H. now rewrite H.
Qed.

Lemma leb_rank (x y : float) :
  (x <=? y) = true <->
  exists a b, rank x = Some a /\ rank y = Some b /\ (lt3 a b \/ a = b).
Proof.
  rewrite FloatAxioms.leb_spec. unfold SFleb, rank. rewrite SFcompare_rank.
  destruct (sf_rank (Prim2SF x)) as [a|], (sf_rank (Prim2SF y)) as [b|];
    try (split; [discriminate | intros (? & ? & ? & ? & ?); discriminate]).
  split.
  - destruct (lex3 a b) eqn:E; try discriminate; intros _; exists a, b.
    + apply lex3_Eq in E. auto.
    + apply lex3_Lt in E. auto.
  - intros (a' & b' & [= <-] & [= <-] & [H | H]).
    + apply lex3_Lt in H. now rewrite H.
    + apply lex3_Eq in H. now rewrite H.
Qed.

Lemma eqb_rank (x y : float) :
  (x =? y) = true <-> exists a, rank x = Some a /\ rank y = Some a.
Proof.
  rewrite FloatAxioms.eqb_spec. unfold SFeqb, rank. rewrite SFcompare_rank.
  destruct (sf_rank (Prim2SF x)) as [a|], (sf_rank (Prim2SF y)) as [b|];
    try (split; [discriminate | intros (? & ? & ?); discriminate]).
  split.
  - destruct (lex3 a b) eqn:E; try discriminate. intros _.
    apply lex3_Eq in E. subst. eauto.
  - intros (a' & [= ->] & [= ->]).
    now rewrite (proj2 (lex3_Eq a' a') eq_refl).
Qed.

Lemma is_nan_rank (x : float) :
  PrimFloat.is_nan x = false <-> exists a, rank x = Some a.
Proof.
  unfold PrimFloat.is_nan. rewrite negb_false_iff, eqb_rank.
  split; [intros (a & H & _) | intros (a & H)]; eauto.
Qed.

Ltac ranks :=
  repeat match goal with
  | H : (_ <? _) = true |- _ =>
      apply ltb_rank in H; destruct H as (? & ? & ? & ? & ?)
  | H : (_ <=? _) = true |- _ =>
      apply leb_rank in H; destruct H as (? & ? & ? & ? & ?)
  | H : (_ =? _) = true |- _ =>
      apply eqb_rank in H; destruct H as (? & ? & ?)
  | H : PrimFloat.is_nan _ = false |- _ =>
      apply is_nan_rank in H; destruct H as (? & ?)
  | H : rank ?x = Some _, H' : rank ?x = Some _ |- _ =>
      rewrite H in H'; injection H' as <-
  end.

Lemma ltb_leb (x y : float) : (x <? y) = true -> (x <=? y) = true.
Proof. intros H. ranks. apply leb_rank. eauto 6. Qed.

Lemma ltb_not_nan (x y : float) :
  (x <? y) = true -> PrimFloat.is_nan x = false /\ PrimFloat.is_nan y = false.
Proof. intros H. ranks. split; apply is_nan_rank; eauto. Qed.

Lemma leb_not_nan (x y : float) :
  (x <=? y) = true -> PrimFloat.is_nan x = false /\ PrimFloat.is_nan y = false.
Proof. intros H. ranks. split; apply is_nan_rank; eauto. Qed.

Lemma ltb_not_leb (x y : float) : (x <? y) = true -> (y <=? x) = false.
Proof.
  intros H. apply not_true_iff_false. intros H'. ranks.
  match goal with
  | H1 : lt3 ?a ?b, H2 : lt3 ?b ?a \/ ?b = ?a |- _ =>
      destruct H2 as [H2 | ->];
      [ exact (lt3_irrefl a (lt3_trans a b a H1 H2)) | exact (lt3_irrefl a H1) ]
  end.
Qed.

Lemma leb_not_ltb (x y : float) : (x <=? y) = true -> (y <? x) = false.
Proof.
  intros H. apply not_true_iff_false. intros H'.
  apply ltb_not_leb in H'. congruence.
Qed.

Lemma not_leb_ltb (x y : float) :
  PrimFloat.is_nan x = false -> PrimFloat.is_nan y = false ->
  (x <=? y) = false -> (y <? x) = true.
Proof.
  intros Hx Hy H. ranks.
  match goal with
  | Hx : rank x = Some ?a, Hy : rank y = Some ?b |- _ =>
      destruct (lt3_total a b) as [L | [L | L]];
      [ | | apply ltb_rank; eauto 6 ];
      exfalso; apply not_true_iff_false in H; apply H; apply leb_rank; eauto 6
  end.
Qed.

Lemma ltb_leb_trans (x y z : float) :
  (x <? y) = true -> (y <=? z) = true -> (x <? z) = true.
Proof.
  intros H1 H2. ranks. apply ltb_rank. do 2 eexists. repeat split; eauto.
  match goal with
  | H : lt3 _ _ \/ _ = _ |- _ => destruct H as [H | <-]; eauto using lt3_trans
  end.
Qed.

Lemma leb_ltb_trans (x y z : float) :
  (x <=? y) = true -> (y <? z) = true -> (x <? z) = true.
Proof.
  intros H1 H2. ranks. apply ltb_rank. do 2 eexists. repeat split; eauto.
  match goal with
  | H : lt3 _ _ \/ _ = _ |- _ => destruct H as [H | ->]; eauto using lt3_trans
  end.
Qed.

Lemma ltb_trans (x y z : float) :
  (x <? y) = true -> (y <? z) = true -> (x <? z) = true.
Proof. intros H1 H2. eapply ltb_leb_trans; eauto using ltb_leb. Qed.

Lemma leb_trans (x y z : float) :
  (x <=? y) = true -> (y <=? z) = true -> (x <=? z) = true.
Proof.
  intros H1 H2. ranks. apply leb_rank. do 2 eexists. repeat split; eauto.
  repeat match goal with
  | H : lt3 _ _ \/ _ = _ |- _ => destruct H as [H | ->]
  end; eauto using lt3_trans.
Qed.

Lemma leb_refl (x : float) : PrimFloat.is_nan x = false -> (x <=? x) = true.
Proof. intros H. ranks. apply leb_rank. eauto 6. Qed.

End NumberOrder.

(** ** Position interpolator *)

Module Interpolator.
Import NumberOrder.

Lemma increasing_tail (p : TripPoint) (path : list TripPoint) :
  increasing_times (p :: path) = true -> increasing_times path = true.
Proof.
  destruct path as [|q rest]; [reflexivity|].
  intros H. change (increasing_times (p :: q :: rest))
    with ((tp_time p <? tp_time q) && increasing_times (q :: rest)) in H.
  apply andb_true_iff in H. tauto.
Qed.

Lemma increasing_head (p q : TripPoint) (path : list TripPoint) :
  increasing_times (p :: q :: path) = true -> (tp_time p <? tp_time q) = true.
Proof.
  intros H. change (increasing_times (p :: q :: path))
    with ((tp_time p <? tp_time q) && increasing_times (q :: path)) in H.
  apply andb_true_iff in H. tauto.
Qed.

(** On an increasing path of two points or more, the first time is
    strictly before the last. *)
Lemma first_before_last (path : list TripPoint) (p q d : TripPoint) :
  increasing_times (p :: q :: path) = true ->
  (tp_time p <? tp_time (List.last (q :: path) d)) = true.
Proof.
  revert p q. induction path as [|r rest IH]; intros p q H.
  - apply (increasing_head _ _ _ H).
  - change (List.last (q :: r :: rest) d) with (List.last (r :: rest) d).
    eapply ltb_trans; [exact (increasing_head _ _ _ H)|].
    apply IH. exact (increasing_tail _ _ H).
Qed.

Lemma last_cons_default (path : list TripPoint) (p d : TripPoint) :
  List.last (p :: path) d = List.last path p.
Proof.
  revert p d. induction path as [|q rest IH]; intros p d; [reflexivity|].
  change (List.last (p :: q :: rest) d) with (List.last (q :: rest) d).
  rewrite (IH q d). symmetry. apply (IH q p).
Qed.

(** The loop finds the first pair of consecutive points whose times
    bracket [t], as soon as [t] lies between the first and last times. *)
Lemma loop_finds_first (path : list TripPoint) (p : TripPoint) (t : float) :
  increasing_times (p :: path) = true ->
  (tp_time p <=? t) = true ->
  (t <? tp_time (List.last path p)) = true ->
  exists i p0 p1,
    (p :: path) !! i = Some p0 /\ (p :: path) !! S i = Some p1 /\
    (tp_time p0 <=? t) = true /\ (t <=? tp_time p1) = true /\
    (forall k q0 q1, (k < i)%nat -> (p :: path) !! k = Some q0 ->
       (p :: path) !! S k = Some q1 ->
       (tp_time q0 <=? t) && (t <=? tp_time q1) = false) /\
    interpolate_loop (p :: path) t = Some (lerp p0 p1 t).
Proof.
  revert p. induction path as [|q rest IH]; intros p Hinc Hp Hlast.
  - cbn in Hlast. apply ltb_not_leb in Hlast. congruence.
  - pose proof (increasing_head _ _ _ Hinc) as Hpq.
    pose proof (increasing_tail _ _ Hinc) as Hinc'.
    destruct (t <=? tp_time q) eqn:Hq.
    + exists 0%nat, p, q. repeat split; try assumption; try reflexivity.
      * intros k q0 q1 Hk. lia.
      * cbn [interpolate_loop]. unfold brackets, geb. now rewrite Hp, Hq.
    + assert (Hq' : (tp_time q <=? t) = true).
      { apply ltb_leb, not_leb_ltb; try assumption.
        - apply (leb_not_nan _ _ Hp).
        - apply (ltb_not_nan _ _ Hpq). }
      rewrite last_cons_default in Hlast.
      destruct (IH q Hinc' Hq' Hlast) as (i & p0 & p1 & H0 & H1 & Hb0 & Hb1 & Hfirst & Hloop).
      exists (S i), p0, p1. repeat split; try assumption.
      * intros [|k] q0 q1 Hk Hk0 Hk1.
        -- cbn in Hk0, Hk1. injection Hk0 as <-. injection Hk1 as <-.
           rewrite Hq. apply andb_false_r.
        -- apply (Hfirst k); [lia | exact Hk0 | exact Hk1].
      * cbn [interpolate_loop]. unfold brackets, geb. rewrite Hp, Hq. exact Hloop.
Qed.

Lemma last_Some_last (path : list TripPoint) (p : TripPoint) :
  last (p :: path) = Some (List.last path p).
Proof.
  revert p. induction path as [|q rest IH]; intros p; [reflexivity|].
  change (last (p :: q :: rest)) with (last (q :: rest)).
  rewrite (last_cons_default rest q p). apply IH.
Qed.

(** C8. On a path whose point times increase strictly,
    [interpolatePosition] returns the coordinates of the first point
    when [t] is at or before the first time, those of the last point
    when [t] is at or after the last time, and otherwise (for a time
    that is a number) the linear interpolation of longitude and
    latitude at the fraction [(t - t0) / (t1 - t0)] within the first
    pair of consecutive points whose times bracket [t]; on a path of a
    single point it returns that point for every [t]. *)
Theorem interpolatePosition_clamps_and_interpolates
    (path : list TripPoint) (first final : TripPoint) (t : float) :
  increasing_times path = true ->
  head path = Some first ->
  last path = Some final ->
  ((t <=? tp_time first) = true ->
     interpolatePosition path t = (tp_lon first, tp_lat first)) /\
  ((tp_time final <=? t) = true ->
     interpolatePosition path t = (tp_lon final, tp_lat final)) /\
  ((t <=? tp_time first) = false -> (tp_time final <=? t) = false ->
   PrimFloat.is_nan t = false ->
     exists i p0 p1,
       path !! i = Some p0 /\ path !! S i = Some p1 /\
       (tp_time p0 <=? t) = true /\ (t <=? tp_time p1) = true /\
       (forall k q0 q1, (k < i)%nat -> path !! k = Some q0 -> path !! S k = Some q1 ->
          (tp_time q0 <=? t) && (t <=? tp_time q1) = false) /\
       interpolatePosition path t =
         (tp_lon p0 + (tp_lon p1 - tp_lon p0) * ((t - tp_time p0) / (tp_time p1 - tp_time p0)),
          tp_lat p0 + (tp_lat p1 - tp_lat p0) * ((t - tp_time p0) / (tp_time p1 - tp_time p0)))) /\
  (path = [first] -> interpolatePosition path t = (tp_lon first, tp_lat first)).
Proof.
  intros Hinc Hhead Hlast.
  destruct path as [|p rest]; [discriminate Hhead|].
  injection Hhead as ->. rewrite last_Some_last in Hlast. injection Hlast as Hfinal.
  assert (Hdef : List.last (first :: rest) first = final)
    by (now rewrite last_cons_default).
  unfold interpolatePosition. rewrite Hdef. unfold geb.
  split; [|split; [|split]].
  - intros ->. reflexivity.
  - intros Hge. destruct rest as [|q rest'].
    + cbn in Hfinal. subst final. rewrite Hge. now destruct (t <=? tp_time first).
    + pose proof (first_before_last rest' first q first Hinc) as Hlt.
      rewrite Hfinal in Hlt.
      rewrite (ltb_not_leb _ _ (ltb_leb_trans _ _ _ Hlt Hge)), Hge. reflexivity.
  - intros Hlo Hhi Ht. rewrite Hlo, Hhi.
    destruct rest as [|q rest'].
    + cbn in Hfinal. subst final.
      cbn in Hinc. apply negb_true_iff in Hinc.
      apply not_leb_ltb in Hlo; try assumption. apply ltb_leb in Hlo. congruence.
    + pose proof (first_before_last rest' first q first Hinc) as Hlt.
      rewrite Hfinal in Hlt.
      destruct (ltb_not_nan _ _ Hlt) as [Hn1 Hn2].
      assert (Hp : (tp_time first <=? t) = true)
        by (apply ltb_leb, not_leb_ltb; assumption).
      assert (Hl : (t <? tp_time (List.last (q :: rest') first)) = true)
        by (rewrite Hfinal; apply not_leb_ltb; assumption).
      destruct (loop_finds_first _ _ _ Hinc Hp Hl)
        as (i & p0 & p1 & H0 & H1 & Hb0 & Hb1 & Hfirst & Hloop).
      exists i, p0, p1. rewrite Hloop. repeat split; assumption.
  - intros [= ->]. cbn in Hfinal. subst final. cbn.
    now destruct (t <=? tp_time first), (tp_time first <=? t).
Qed.

Lemma interpolatePosition_witness :
  increasing_times Scenario.sample_path = true /\
  interpolatePosition Scenario.sample_path 0 = (-122.345, 47.6) /\
  interpolatePosition Scenario.sample_path 240 = (-122.33, 47.615) /\
  exists i p0 p1,
    Scenario.sample_path !! i = Some p0 /\ Scenario.sample_path !! S i = Some p1 /\
    (tp_time p0 <=? 90) = true /\ (90 <=? tp_time p1) = true /\
    interpolatePosition Scenario.sample_path 90 =
      (tp_lon p0 + (tp_lon p1 - tp_lon p0) * ((90 - tp_time p0) / (tp_time p1 - tp_time p0)),
       tp_lat p0 + (tp_lat p1 - tp_lat p0) * ((90 - tp_time p0) / (tp_time p1 - tp_time p0))).
Proof.
  pose proof (fun t => interpolatePosition_clamps_and_interpolates Scenario.sample_path
                         (mkTripPoint 0 (-122.345) 47.6) (mkTripPoint 180 (-122.33) 47.615) t
                         eq_refl eq_refl eq_refl) as H.
  split; [reflexivity|]. split; [|split].
  - exact (proj1 (H 0) eq_refl).
  - exact (proj1 (proj2 (H 240)) eq_refl).
  - destruct (proj1 (proj2 (proj2 (H 90))) eq_refl eq_refl eq_refl)
      as (i & p0 & p1 & H0 & H1 & Hb0 & Hb1 & _ & Hr).
    exists i, p0, p1. repeat split; assumption.
Defined.

(** C10. On the empty path [interpolatePosition] returns the fixed
    coordinate [(0, 0)], whatever the time. *)
Theorem interpolatePosition_empty_path (t : float) :
  interpolatePosition [] t = (0, 0).
Proof. reflexivity. Qed.

End Interpolator.

(** ** Playback clock *)

Module PlaybackClock.
Import NumberOrder.

Lemma not_ltb_leb (x y : float) :
  PrimFloat.is_nan x = false -> PrimFloat.is_nan y = false ->
  (x <? y) = false -> (y <=? x) = true.
Proof.
  intros Hx Hy H. destruct (y <=? x) eqn:E; [reflexivity|].
  apply not_leb_ltb in E; congruence.
Qed.

Lemma leb_antisym (x y : float) :
  (x <=? y) = true -> (y <=? x) = true -> (x =? y) = true.
Proof.
  intros H1 H2. ranks. apply eqb_rank.
  repeat match goal with
  | H : lt3 _ _ \/ _ = _ |- _ => destruct H as [H | ->]
  end; eauto.
  exfalso. eapply lt3_irrefl, lt3_trans; eassumption.
Qed.

Lemma neg_infinity_least (x : float) :
  PrimFloat.is_nan x = false -> (neg_infinity <=? x) = true.
Proof.
  intros H. apply is_nan_rank in H. destruct H as (a & Ha).
  apply leb_rank. exists (-2, 0, 0)%Z, a. repeat split; [assumption|].
  unfold rank in Ha. destruct (Prim2SF x) as [[]|[]| |[] m e]; cbn in Ha;
    try discriminate; injection Ha as <-; unfold lt3; auto; left; lia.
Qed.

(** [Math.max] of two numbers is one of them and bounds both. *)
Lemma Math_max2_spec (a b : float) :
  PrimFloat.is_nan a = false -> PrimFloat.is_nan b = false ->
  (Math_max2 a b = a \/ Math_max2 a b = b) /\
  (a <=? Math_max2 a b) = true /\ (b <=? Math_max2 a b) = true.
Proof.
  intros Ha Hb. unfold Math_max2. rewrite Ha, Hb.
  destruct (a <? b) eqn:Hab.
  { repeat split; auto using ltb_leb, leb_refl. }
  destruct (b <? a) eqn:Hba.
  { repeat split; auto using ltb_leb, leb_refl. }
  pose proof (not_ltb_leb _ _ Ha Hb Hab).
  pose proof (not_ltb_leb _ _ Hb Ha Hba).
  destruct (PrimFloat.get_sign a); repeat split; auto using leb_refl.
Qed.

Lemma foldl_Math_max2 (xs : list float) (a : float) :
  PrimFloat.is_nan a = false ->
  Forall (fun x => PrimFloat.is_nan x = false) xs ->
  PrimFloat.is_nan (foldl Math_max2 a xs) = false /\
  (foldl Math_max2 a xs = a \/ In (foldl Math_max2 a xs) xs) /\
  (a <=? foldl Math_max2 a xs) = true /\
  Forall (fun x => (x <=? foldl Math_max2 a xs) = true) xs.
Proof.
  revert a. induction xs as [|x xs IH]; intros a Ha Hxs.
  - cbn. auto using leb_refl.
  - inversion Hxs as [|? ? Hx Hxs']; subst.
    destruct (Math_max2_spec a x Ha Hx) as (Hsel & Hle1 & Hle2).
    assert (Hm : PrimFloat.is_nan (Math_max2 a x) = false)
      by (destruct Hsel as [-> | ->]; assumption).
    destruct (IH (Math_max2 a x) Hm Hxs') as (Hn & Hin & Hle & Hall).
    cbn [foldl]. repeat split.
    + exact Hn.
    + destruct Hin as [-> | Hin].
      * destruct Hsel as [-> | ->]; [left; reflexivity | right; left; reflexivity].
      * right. right. exact Hin.
    + eapply leb_trans; eassumption.
    + constructor; [eapply leb_trans; eassumption | exact Hall].
Qed.

Lemma maxTime_is_maximum (t : Trip) (ts : list Trip) :
  Forall (fun tr => PrimFloat.is_nan (terminal_time tr) = false) (t :: ts) ->
  Forall (fun tr => (terminal_time tr <=? maxTime (Some (t :: ts))) = true) (t :: ts) /\
  Exists (fun tr => (maxTime (Some (t :: ts)) =? terminal_time tr) = true) (t :: ts).
Proof.
  intros Hnan. unfold maxTime, Math_max.
  assert (Hxs : Forall (fun x => PrimFloat.is_nan x = false) (map terminal_time (t :: ts))).
  { apply Forall_forall. intros x Hx. apply list_elem_of_In, in_map_iff in Hx.
    destruct Hx as (tr & <- & Hin). apply list_elem_of_In in Hin.
    exact (proj1 (Forall_forall _ _) Hnan tr Hin). }
  destruct (foldl_Math_max2 _ neg_infinity eq_refl Hxs) as (Hn & Hin & _ & Hall).
  set (m := foldl Math_max2 neg_infinity (map terminal_time (t :: ts))) in *.
  split.
  - apply Forall_forall. intros tr Htr.
    apply (proj1 (Forall_forall _ _) Hall). apply list_elem_of_In, in_map.
    now apply list_elem_of_In.
  - destruct Hin as [Hm | Hin].
    + apply Exists_exists. exists t. split; [left|].
      apply leb_antisym.
      * rewrite Hm. apply neg_infinity_least.
        inversion Hnan; assumption.
      * inversion Hall; assumption.
    + apply in_map_iff in Hin. destruct Hin as (tr & Htr & Hin).
      apply Exists_exists. exists tr. split; [now apply list_elem_of_In|].
      rewrite Htr. unfold PrimFloat.is_nan in Hn. now apply negb_false_iff in Hn.
Qed.

Lemma tick_keeps_bound (maxT : float) (c : Clock) :
  gtb (clk_time c) maxT = false -> (0 <? maxT) = true ->
  gtb (clk_time (tick maxT c)) maxT = false.
Proof.
  unfold gtb, tick, advance. intros Hc Hpos.
  destruct (negb (playing c) || (maxT =? 0)); [exact Hc|].
  destruct (falsy maxT); [exact Hc|]. cbn [clk_time]. unfold geb.
  destruct (maxT <=? clk_time c + playbackSpeed c) eqn:E.
  - apply leb_not_ltb, ltb_leb, Hpos.
  - destruct (maxT <? clk_time c + playbackSpeed c) eqn:E'; [|reflexivity].
    apply ltb_leb in E'. congruence.
Qed.

Lemma run_clock_keeps_bound (maxT : float) (events : list ClockEvent) (c : Clock) :
  gtb (clk_time c) maxT = false -> (0 <? maxT) = true ->
  forallb (within_maxTime maxT) events = true ->
  gtb (clk_time (run_clock maxT c events)) maxT = false.
Proof.
  revert c. induction events as [|e events IH]; intros c Hc Hpos Hev; [exact Hc|].
  cbn [forallb] in Hev. apply andb_true_iff in Hev. destruct Hev as [He Hev].
  unfold run_clock. cbn [foldl]. apply IH; try assumption.
  destruct e; cbn [clock_step seek clk_time]; try assumption.
  - now apply tick_keeps_bound.
  - cbn in He. now apply negb_true_iff in He.
Qed.

(** C7. While the clock is running and [maxTime] is positive, a tick
    sets the time to [time + speed] when that sum is strictly below
    [maxTime] and to [0] when the sum reaches or exceeds it; starting
    from the initial clock, ticks, pauses, resumptions, changes of
    speed and seeks to a time up to [maxTime] never lead to a time above
    [maxTime]. [maxTime] is the
    maximum of the terminal timestamps of the trips; without trips it
    is [0] and a tick leaves the clock as it is. *)
Theorem playback_clock_wraps_at_maxTime (trips : option (list Trip)) (c : Clock) :
  (playing c = true -> (0 <? maxTime trips) = true ->
     ((clk_time c + playbackSpeed c <? maxTime trips) = true ->
        clk_time (tick (maxTime trips) c) = clk_time c + playbackSpeed c) /\
     (geb (clk_time c + playbackSpeed c) (maxTime trips) = true ->
        clk_time (tick (maxTime trips) c) = 0)) /\
  ((0 <? maxTime trips) = true ->
     forall events, forallb (within_maxTime (maxTime trips)) events = true ->
       gtb (clk_time (run_clock (maxTime trips) initial_clock events)) (maxTime trips) = false) /\
  (forall t ts, trips = Some (t :: ts) ->
     Forall (fun tr => PrimFloat.is_nan (terminal_time tr) = false) (t :: ts) ->
     Forall (fun tr => (terminal_time tr <=? maxTime trips) = true) (t :: ts) /\
     Exists (fun tr => (maxTime trips =? terminal_time tr) = true) (t :: ts)) /\
  (trips = None \/ trips = Some [] ->
     maxTime trips = 0 /\ forall c', tick (maxTime trips) c' = c').
Proof.
  split; [|split; [|split]].
  - intros Hplay Hpos. unfold tick, advance. rewrite Hplay.
    assert (H0 : (maxTime trips =? 0) = false).
    { apply not_true_iff_false. intros H. ranks.
      eapply lt3_irrefl; eassumption. }
    assert (Hf : falsy (maxTime trips) = false).
    { unfold falsy, PrimFloat.is_zero. change zero with 0. rewrite H0.
      apply (ltb_not_nan _ _ Hpos). }
    rewrite H0, Hf. cbn [negb orb clk_time]. unfold geb. split.
    + intros Hlt. now rewrite (ltb_not_leb _ _ Hlt).
    + intros ->. reflexivity.
  - intros Hpos events Hev. apply run_clock_keeps_bound; try assumption.
    unfold gtb. cbn [initial_clock clk_time]. apply leb_not_ltb, ltb_leb, Hpos.
  - intros t ts -> Hnan. now apply maxTime_is_maximum.
  - intros [-> | ->]; (split; [reflexivity|]); intros c'; unfold tick; cbn;
      now rewrite orb_true_r.
Qed.

Lemma playback_clock_witness :
  maxTime (Some SAMPLE_TRIPS) = 180 /\
  clk_time (tick 180 initial_clock) = 1 /\
  clk_time (tick 180 (mkClock 179.5 true 1)) = 0 /\
  gtb (clk_time (run_clock 180 initial_clock
                   [Tick; SetSpeed 200; Tick; Seek 170; TogglePlaying; Tick])) 180
    = false.
Proof.
  destruct (playback_clock_wraps_at_maxTime (Some SAMPLE_TRIPS) initial_clock)
    as (Htick & Hbound & _).
  destruct (playback_clock_wraps_at_maxTime (Some SAMPLE_TRIPS) (mkClock 179.5 true 1))
    as (Hwrap & _).
  split; [reflexivity|]. split; [|split].
  - exact (proj1 (Htick eq_refl eq_refl) eq_refl).
  - exact (proj2 (Hwrap eq_refl eq_refl) eq_refl).
  - exact (Hbound eq_refl [Tick; SetSpeed 200; Tick; Seek 170; TogglePlaying; Tick] eq_refl).
Defined.

End PlaybackClock.

(** ** Selection state *)

Module SelectionState.

Lemma select_at_most_one (s : Selection) (e : SelectionEvent) :
  (selected_count (select s e) <= 1)%nat.
Proof.
  destruct e as [[[cell | trip | station] |] |]; cbn; lia.
Qed.

Lemma run_at_most_one (events : list SelectionEvent) (s : Selection) :
  (selected_count s <= 1)%nat ->
  (selected_count (foldl select s events) <= 1)%nat.
Proof.
  revert s. induction events as [|e events IH]; intros s Hs; [exact Hs|].
  cbn [foldl]. apply IH, select_at_most_one.
Qed.

(** C6. Whatever the state before, a click on a trip, a station or a
    cell leaves exactly that one selected and the other two cleared,
    and a click that hits no object clears all three; after any sequence
    of events from the initial state at most one of the three
    identifiers is set. *)
Theorem selection_is_mutually_exclusive (s : Selection) (events : list SelectionEvent) :
  (forall trip, select s (Click (Some (PickedTrip trip)))
                = mkSelection (Some (trip_id trip)) None None) /\
  (forall station, select s (Click (Some (PickedStation station)))
                   = mkSelection None (Some (station_id station)) None) /\
  (forall cell, select s (Click (Some (PickedCell cell)))
                = mkSelection None None (Some (cellId cell))) /\
  select s (Click None) = mkSelection None None None /\
  (selected_count (foldl select initial_selection events) <= 1)%nat.
Proof.
  repeat split. apply run_at_most_one. cbn. lia.
Qed.

End SelectionState.

(** ** Spatial grid indexer *)

Module GridIndexer.

(** [Math.floor] and [Math.ceil] on some values, as JavaScript gives them. *)
Example Math_floor_examples :
  Math_floor 27.5 = 27 /\ Math_floor (-0.5) = -1 /\ Math_floor 0.5 = 0 /\
  Math_floor 3 = 3 /\ Math_floor (-3.2) = -4 /\ Math_floor infinity = infinity.
Proof. repeat split; reflexivity. Qed.

Example Math_ceil_examples :
  Math_ceil 27 = 27 /\ Math_ceil 27.000000000000313 = 28 /\
  Math_ceil (-0.5) = -0 /\ Math_ceil 3.2 = 4.
Proof. repeat split; reflexivity. Qed.

(** In binary64 the quotients [(max - min) / step] come out just above
    27 and 23, so the grid has 28 rows and 24 columns. *)
Lemma grid_dimensions :
  (27 <? (GRID_MAX_LAT - GRID_MIN_LAT) / GRID_LAT_STEP) = true /\
  (23 <? (GRID_MAX_LON - GRID_MIN_LON) / GRID_LON_STEP) = true /\
  grid_nLat = 28 /\ grid_nLon = 24.
Proof. repeat split; reflexivity. Qed.

(** C9, at a point outside the grid bounds. The grid has 28 rows, not
    27, because the quotient of the latitude range by the step is just
    above 27 in binary64; the latitude [47.755] is above [GRID_MAX_LAT],
    its row index is 27, and [latLonToCellId] returns the cell id
    [27 * 24 + 15] instead of [null]. *)
Theorem latLonToCellId_above_max_lat :
  (GRID_MAX_LAT - GRID_MIN_LAT) / GRID_LAT_STEP = 27.000000000000313 /\
  grid_nLat = 28 /\ grid_nLon = 24 /\
  (GRID_MAX_LAT <? 47.755) = true /\
  Math_floor ((47.755 - GRID_MIN_LAT) / GRID_LAT_STEP) = 27 /\
  Math_floor ((-122.3 - GRID_MIN_LON) / GRID_LON_STEP) = 15 /\
  latLonToCellId 47.755 (-122.3) = Some 663.
Proof. repeat split; reflexivity. Qed.

(** The same east of [GRID_MAX_LON]. *)
Lemma latLonToCellId_beyond_max_lon :
  (GRID_MAX_LON <? -122.215) = true /\
  latLonToCellId 47.6 (-122.215) = Some 311.
Proof. split; reflexivity. Qed.

(** Inside the bounds, and outside them by more than one step or below
    the minimum, the function does what is expected of it. *)
Lemma latLonToCellId_samples :
  latLonToCellId 47.6 (-122.3) = Some 303 /\
  latLonToCellId 47.47 (-122.3) = None /\
  latLonToCellId 47.6 (-122.46) = None /\
  latLonToCellId 47.77 (-122.3) = None /\
  latLonToCellId 47.6 (-122.2) = None.
Proof. repeat split; reflexivity. Qed.

End GridIndexer.

(** ** Deployment and route orchestrator *)

Module Orchestrator.

Lemma add_moves_spec (moves : list Move) (active : gset string) (i : string) :
  i ∈ add_moves active moves <-> i ∈ active \/ In i (move_endpoints moves).
Proof.
  revert active. induction moves as [|mv moves IH]; intros active.
  - cbn. tauto.
  - unfold add_moves. cbn [foldl]. fold (add_moves ({[to_station_id mv]} ∪ ({[from_station_id mv]} ∪ active)) moves).
    rewrite IH. cbn [move_endpoints flat_map app In].
    fold (move_endpoints moves).
    rewrite !elem_of_union, !elem_of_singleton.
    intuition congruence.
Qed.

Lemma flag_stations_base (f : string) (active : gset string) (sts : list StationDeployment) :
  map st_base (flag_stations f active sts) = sts.
Proof.
  unfold flag_stations. rewrite map_map. cbn. apply map_id.
Qed.

Lemma flag_stations_Forall (f : string) (active : gset string) (sts : list StationDeployment) :
  Forall (fun st => st_fleet_type st = f /\ (st_inMove st = true <-> station_id st ∈ active))
    (flag_stations f active sts).
Proof.
  unfold flag_stations. apply Forall_forall. intros st Hst.
  apply list_elem_of_In, in_map_iff in Hst. destruct Hst as (s & <- & _).
  cbn. split; [reflexivity|]. apply bool_decide_eq_true.
Qed.

(** [Promise.all] returns exactly when no promise rejected. *)
Lemma Promise_all_Returned {A} (ps : list (Outcome A)) (rs : list A) :
  Promise_all ps = Returned rs <-> ps = map Returned rs.
Proof.
  revert rs. induction ps as [|p ps IH]; intros rs.
  - cbn. split.
    + intros [= <-]. reflexivity.
    + destruct rs; [reflexivity | discriminate].
  - cbn. destruct p as [|a]; cbn.
    + split; [discriminate|]. destruct rs; discriminate.
    + destruct (Promise_all ps) as [|l] eqn:E; cbn.
      * split; [discriminate|]. destruct rs as [|r rs]; [discriminate|].
        intros [= -> Hps]. apply IH in Hps. discriminate.
      * split.
        -- intros [= <-]. cbn. f_equal. now apply IH.
        -- destruct rs as [|r rs]; [discriminate|].
           intros [= -> Hps]. apply IH in Hps. injection Hps as ->. reflexivity.
Qed.

Lemma process_fleet_NotOk (B : Backend) (acc : Acc) (f : FleetType)
    (inputs : list StationInput) (status : nat) :
  optimize_deployment B f inputs = NotOk status ->
  process_fleet B acc (f, inputs) = Returned acc.
Proof. intros H. unfold process_fleet. now rewrite H. Qed.

Lemma process_fleet_Ok (B : Backend) (acc : Acc) (f : FleetType)
    (inputs : list StationInput) (d : DeploymentResponse) :
  optimize_deployment B f inputs = Ok d ->
  process_fleet B acc (f, inputs) =
  (routeResponses ←
     Promise_all (imap (fetch_route B f (index_stations (dr_stations d))) (dr_moves d));
   mret {| allStations :=
             allStations acc ++
             flag_stations (default (fleet_name f) (dr_fleet_type d))
               (add_moves (activeStationIds acc) (dr_moves d)) (dr_stations d);
           allTrips :=
             allTrips acc ++ assemble_trips (default (fleet_name f) (dr_fleet_type d)) routeResponses;
           activeStationIds := add_moves (activeStationIds acc) (dr_moves d) |}).
Proof. intros H. unfold process_fleet. now rewrite H. Qed.

(** The response at index [i] belongs to the move at index [i]. *)
Lemma Promise_all_imap_lookup {A R} (g : nat -> A -> Outcome R) (l : list A)
    (rs : list R) (i : nat) (x : A) (r : R) :
  Promise_all (imap g l) = Returned rs ->
  l !! i = Some x -> g i x = Returned r -> rs !! i = Some r.
Proof.
  intros Hall Hx Hg. apply Promise_all_Returned in Hall.
  assert (H : imap g l !! i = map Returned rs !! i) by now rewrite Hall.
  rewrite list_lookup_imap, Hx in H. cbn in H. rewrite Hg in H.
  change (map Returned rs) with (Returned <$> rs) in H.
  rewrite list_lookup_fmap in H.
  destruct (rs !! i) as [r'|]; cbn in H; [|discriminate]. congruence.
Qed.

Lemma assemble_trips_In (f : string) (rs : list (option RouteEntry))
    (i : nat) (e : RouteEntry) :
  rs !! i = Some (Some e) -> In (trip_of_entry f i e) (assemble_trips f rs).
Proof.
  intros H. unfold assemble_trips. apply in_concat.
  exists [trip_of_entry f i e]. split; [|now left].
  apply list_elem_of_In, list_elem_of_lookup. exists i.
  now rewrite list_lookup_imap, H.
Qed.

(** An iteration of the loop only appends to the trips. *)
Lemma process_fleet_appends_trips (B : Backend) (acc acc' : Acc)
    (config : FleetType * list StationInput) :
  process_fleet B acc config = Returned acc' ->
  exists ts, allTrips acc' = allTrips acc ++ ts.
Proof.
  destruct config as [f inputs]. unfold process_fleet.
  destruct (optimize_deployment B f inputs) as [|status|d]; [discriminate| |].
  - intros [= <-]. exists []. now rewrite app_nil_r.
  - destruct (Promise_all _) as [|rs]; [discriminate|]. cbn.
    intros [= <-]. cbn. eauto.
Qed.

(** A move whose endpoints resolve and whose route request is answered
    with an ok response gets its trip, whatever the points are. *)
Lemma process_fleet_keeps_route_trip (B : Backend) (acc acc' : Acc) (f : FleetType)
    (inputs : list StationInput) (d : DeploymentResponse) (i : nat) (move : Move)
    (from to : JsValue) (json : RouteJson) :
  process_fleet B acc (f, inputs) = Returned acc' ->
  optimize_deployment B f inputs = Ok d ->
  dr_moves d !! i = Some move ->
  stationById_get (index_stations (dr_stations d)) (from_station_id move) = Some from ->
  stationById_get (index_stations (dr_stations d)) (to_station_id move) = Some to ->
  truthy_value from = true -> truthy_value to = true ->
  route B f i (mkRouteRequest (number_property sd_lat from) (number_property sd_lon from)
                              (number_property sd_lat to) (number_property sd_lon to))
    = Ok json ->
  In (trip_of_entry (default (fleet_name f) (dr_fleet_type d)) i
        (mkRouteEntry json move from to))
     (allTrips acc').
Proof.
  intros Hrun Hd Hmove Hfrom Hto Tfrom Tto Hroute.
  rewrite (process_fleet_Ok _ _ _ _ _ Hd) in Hrun.
  destruct (Promise_all _) as [|rs] eqn:Hall; [discriminate|].
  cbn in Hrun. injection Hrun as <-. cbn [allTrips].
  apply in_or_app. right. apply assemble_trips_In.
  eapply Promise_all_imap_lookup; [exact Hall | exact Hmove |].
  unfold fetch_route. now rewrite Hfrom, Hto, Tfrom, Tto, Hroute.
Qed.

(** What one iteration adds to the stations, and to the set of active
    station ids that the next iteration starts from. *)
Lemma process_fleet_stations (B : Backend) (acc acc' : Acc) (f : FleetType)
    (inputs : list StationInput) :
  process_fleet B acc (f, inputs) = Returned acc' ->
  activeStationIds acc' = add_moves (activeStationIds acc) (returned_moves B f inputs) /\
  exists sts,
    allStations acc' = allStations acc ++ sts /\
    map st_base sts = returned_stations B f inputs /\
    Forall (fun st => st_inMove st = true <-> station_id st ∈ activeStationIds acc') sts.
Proof.
  unfold process_fleet, returned_moves, returned_stations.
  destruct (optimize_deployment B f inputs) as [|status|d]; [discriminate| |].
  - intros [= <-]. split; [reflexivity|]. exists []. rewrite app_nil_r. auto.
  - destruct (Promise_all _) as [|rs]; [discriminate|]. cbn.
    intros [= <-]. cbn. split; [reflexivity|].
    eexists. split; [reflexivity|]. split; [apply flag_stations_base|].
    eapply Forall_impl; [apply flag_stations_Forall|]. cbn. tauto.
Qed.

Section Run.

Variables F P : list StationInput.
Variable B : Backend.
Variables fs ps : option (list StationInput).

(** A run that does not throw went through both fleets in turn. *)
Lemma run_fleets_Returned (acc : Acc) :
  run_fleets F P B fs ps = Returned acc ->
  exists acc1,
    process_fleet B empty_acc (fire, fleet_inputs F P fs ps fire) = Returned acc1 /\
    process_fleet B acc1 (police, fleet_inputs F P fs ps police) = Returned acc.
Proof.
  unfold run_fleets, fleetConfigs. cbn [process_fleets fleet_inputs].
  destruct (process_fleet B empty_acc _) as [|acc1] eqn:E1; [discriminate|].
  cbn [mbind Outcome_bind].
  destruct (process_fleet B acc1 _) as [|acc2] eqn:E2; [discriminate|].
  cbn [mbind Outcome_bind]. intros [= <-]. exists acc1. split; [reflexivity | exact E2].
Qed.

(** C2. When a run has produced no trip at all, whether it went through
    or threw, the trip list is the built-in fallback: a single trip of
    id [veh_101] that has no station endpoints, so that the list of
    moves of the context snapshot is empty. *)
Theorem zero_trips_give_the_fallback_trip :
  match run_fleets F P B fs ps with
  | Returned acc => allTrips acc = []
  | Threw => True
  end ->
  trips (fetchAll F P B fs ps) = SAMPLE_TRIPS /\
  map trip_id (trips (fetchAll F P B fs ps)) = ["veh_101"] /\
  Forall (fun t => fromStationId t = None /\ toStationId t = None)
    (trips (fetchAll F P B fs ps)) /\
  context_moves (Some (trips (fetchAll F P B fs ps))) = [].
Proof.
  intros H.
  assert (E : trips (fetchAll F P B fs ps) = SAMPLE_TRIPS).
  { unfold fetchAll. destruct (run_fleets F P B fs ps) as [|acc]; [reflexivity|].
    cbn. now rewrite H. }
  rewrite E. repeat split. repeat constructor.
Qed.

(** C3, as the code has it. A route response that is ok and whose list
    of points is empty still yields the trip of its move: the trip, with
    an empty path, is in the trip list of a run that does not throw,
    and the fallback is not substituted. *)
Theorem empty_route_still_yields_its_trip (f : FleetType) (d : DeploymentResponse)
    (i : nat) (move : Move) (from to : JsValue) (acc : Acc) :
  optimize_deployment B f (fleet_inputs F P fs ps f) = Ok d ->
  dr_moves d !! i = Some move ->
  stationById_get (index_stations (dr_stations d)) (from_station_id move) = Some from ->
  stationById_get (index_stations (dr_stations d)) (to_station_id move) = Some to ->
  truthy_value from = true -> truthy_value to = true ->
  route B f i (mkRouteRequest (number_property sd_lat from) (number_property sd_lon from)
                              (number_property sd_lat to) (number_property sd_lon to))
    = Ok (mkRouteJson []) ->
  run_fleets F P B fs ps = Returned acc ->
  exists t,
    In t (trips (fetchAll F P B fs ps)) /\
    trip_path t = [] /\
    trip_id t = default (fleet_name f) (dr_fleet_type d) +:+ "_" +:+ from_station_id move
                +:+ "_" +:+ to_station_id move +:+ "_" +:+ pretty i /\
    trip_fleet_type t = default (fleet_name f) (dr_fleet_type d) /\
    fromStationId t = Some (from_station_id move) /\
    toStationId t = Some (to_station_id move) /\
    trips (fetchAll F P B fs ps) = allTrips acc.
Proof.
  intros Hd Hmove Hfrom Hto Tfrom Tto Hroute Hrun.
  exists (trip_of_entry (default (fleet_name f) (dr_fleet_type d)) i
            (mkRouteEntry (mkRouteJson []) move from to)).
  assert (Hin : In (trip_of_entry (default (fleet_name f) (dr_fleet_type d)) i
                      (mkRouteEntry (mkRouteJson []) move from to)) (allTrips acc)).
  { destruct (run_fleets_Returned acc Hrun) as (acc1 & E1 & E2).
    destruct f.
    - destruct (process_fleet_appends_trips _ _ _ _ E2) as (ts & ->).
      apply in_or_app. left.
      exact (process_fleet_keeps_route_trip _ _ _ _ _ _ _ _ _ _ _
               E1 Hd Hmove Hfrom Hto Tfrom Tto Hroute).
    - exact (process_fleet_keeps_route_trip _ _ _ _ _ _ _ _ _ _ _
               E2 Hd Hmove Hfrom Hto Tfrom Tto Hroute). }
  assert (Htrips : trips (fetchAll F P B fs ps) = allTrips acc).
  { unfold fetchAll. rewrite Hrun. cbn.
    destruct (allTrips acc); [destruct Hin | reflexivity]. }
  rewrite Htrips. repeat split; try reflexivity. exact Hin.
Qed.

(** The extent of the flags. The set of active station ids is shared by
    the two iterations of the loop, fire first: a station of the fire
    deployment is flagged exactly when its id is an endpoint of a fire
    move, and a station of the police deployment exactly when its id is
    an endpoint of a fire move or of a police move. *)
Lemma inMove_accumulates_across_fleets (acc : Acc) :
  run_fleets F P B fs ps = Returned acc ->
  exists fromFire fromPolice,
    stations (fetchAll F P B fs ps) = fromFire ++ fromPolice /\
    map st_base fromFire = returned_stations B fire (fleet_inputs F P fs ps fire) /\
    map st_base fromPolice = returned_stations B police (fleet_inputs F P fs ps police) /\
    Forall (fun st =>
              st_inMove st = true <->
              In (station_id st)
                 (move_endpoints (returned_moves B fire (fleet_inputs F P fs ps fire))))
           fromFire /\
    Forall (fun st =>
              st_inMove st = true <->
              In (station_id st)
                 (move_endpoints (returned_moves B fire (fleet_inputs F P fs ps fire))) \/
              In (station_id st)
                 (move_endpoints (returned_moves B police (fleet_inputs F P fs ps police))))
           fromPolice.
Proof.
  intros Hrun. destruct (run_fleets_Returned acc Hrun) as (acc1 & E1 & E2).
  destruct (process_fleet_stations _ _ _ _ _ E1) as (A1 & l1 & S1 & M1 & I1).
  destruct (process_fleet_stations _ _ _ _ _ E2) as (A2 & l2 & S2 & M2 & I2).
  exists l1, l2. unfold fetchAll. rewrite Hrun. cbn [stations].
  rewrite S2, S1. cbn [allStations empty_acc app].
  repeat split; try assumption.
  - eapply Forall_impl; [exact I1|]. cbn. intros st ->.
    rewrite A1, add_moves_spec. cbn [activeStationIds empty_acc].
    rewrite elem_of_empty. tauto.
  - eapply Forall_impl; [exact I2|]. cbn. intros st ->.
    rewrite A2, add_moves_spec, A1, add_moves_spec. cbn [activeStationIds empty_acc].
    rewrite elem_of_empty. tauto.
Qed.

(** A deployment request that rejects, for either fleet, sends the run
    to the [catch] block: no station, and the fallback trip. *)
Lemma rejected_request_discards_the_run (f : FleetType) :
  optimize_deployment B f (fleet_inputs F P fs ps f) = Rejected ->
  fetchAll F P B fs ps = mkScene [] SAMPLE_TRIPS 0.
Proof.
  intros H. unfold fetchAll.
  destruct (run_fleets F P B fs ps) as [|acc] eqn:Hrun; [reflexivity|].
  destruct (run_fleets_Returned acc Hrun) as (acc1 & E1 & E2).
  unfold process_fleet in E1, E2. destruct f; cbn [fleet_inputs] in *.
  - now rewrite H in E1.
  - now rewrite H in E2.
Qed.

(** C1, as the code has it. When the deployment request of one fleet is
    answered with a response that is not ok, the request of the other
    fleet succeeds and none of its route requests rejects, the station
    list is exactly the stations of the succeeding deployment (each with
    the fleet of that deployment, and flagged by its moves alone), and
    the trip list is exactly the trips of the succeeding fleet when
    there is at least one; when there is none it is the fallback trip. *)
Theorem one_fleet_failing_leaves_the_other (failing succeeding : FleetType)
    (status : nat) (d : DeploymentResponse) (rs : list (option RouteEntry)) :
  failing <> succeeding ->
  optimize_deployment B failing (fleet_inputs F P fs ps failing) = NotOk status ->
  optimize_deployment B succeeding (fleet_inputs F P fs ps succeeding) = Ok d ->
  Promise_all (imap (fetch_route B succeeding (index_stations (dr_stations d)))
                    (dr_moves d)) = Returned rs ->
  map st_base (stations (fetchAll F P B fs ps)) = dr_stations d /\
  Forall (fun st =>
            st_fleet_type st = default (fleet_name succeeding) (dr_fleet_type d) /\
            (st_inMove st = true <-> In (station_id st) (move_endpoints (dr_moves d))))
         (stations (fetchAll F P B fs ps)) /\
  trips (fetchAll F P B fs ps) =
    match assemble_trips (default (fleet_name succeeding) (dr_fleet_type d)) rs with
    | [] => SAMPLE_TRIPS
    | own => own
    end.
Proof.
  intros Hne Hfail Hok Hrs.
  assert (E : run_fleets F P B fs ps =
              Returned {| allStations :=
                            flag_stations (default (fleet_name succeeding) (dr_fleet_type d))
                              (add_moves ∅ (dr_moves d)) (dr_stations d);
                          allTrips :=
                            assemble_trips (default (fleet_name succeeding) (dr_fleet_type d)) rs;
                          activeStationIds := add_moves ∅ (dr_moves d) |}).
  { unfold run_fleets, fleetConfigs. cbn [process_fleets].
    destruct failing, succeeding; try congruence; cbn [fleet_inputs] in Hfail, Hok.
    - rewrite (process_fleet_NotOk _ _ _ _ _ Hfail). cbn [mbind Outcome_bind].
      rewrite (process_fleet_Ok _ _ _ _ _ Hok), Hrs. reflexivity.
    - rewrite (process_fleet_Ok _ _ _ _ _ Hok), Hrs. cbn [mbind Outcome_bind mret Outcome_ret].
      rewrite (process_fleet_NotOk _ _ _ _ _ Hfail). reflexivity. }
  unfold fetchAll. rewrite E. cbn [stations trips allStations allTrips].
  split; [apply flag_stations_base|]. split.
  - eapply Forall_impl; [apply flag_stations_Forall|]. cbn. intros st [-> ->].
    rewrite add_moves_spec, elem_of_empty. tauto.
  - now destruct (assemble_trips _ rs).
Qed.

(** C4, as the code has it. With the single input station FS1 and a
    deployment whose only move is FS1 to FS1, the move is resolved like
    any other (both endpoints are FS1) and its route is requested. When
    the route request succeeds the run produces the trip of the move,
    and no fallback; when it is answered with a response that is not ok
    the run produces no trip and the fallback is substituted. *)
Theorem self_move_is_routed_like_any_move (d : DeploymentResponse)
    (st : StationDeployment) (n dist : float) :
  fleet_inputs F P fs ps fire = [Scenario.FS1_input] ->
  optimize_deployment B fire [Scenario.FS1_input] = Ok d ->
  dr_moves d = [mkMove "FS1" "FS1" n dist] ->
  stationById_get (index_stations (dr_stations d)) "FS1" = Some (VStation st) ->
  (exists s, optimize_deployment B police (fleet_inputs F P fs ps police) = NotOk s) \/
  (exists d', optimize_deployment B police (fleet_inputs F P fs ps police) = Ok d' /\
              dr_moves d' = []) ->
  (forall json,
     route B fire 0 (mkRouteRequest (Some (sd_lat st)) (Some (sd_lon st))
                                    (Some (sd_lat st)) (Some (sd_lon st))) = Ok json ->
     trips (fetchAll F P B fs ps) =
       [trip_of_entry (default "fire" (dr_fleet_type d)) 0
          (mkRouteEntry json (mkMove "FS1" "FS1" n dist) (VStation st) (VStation st))] /\
     map trip_id (trips (fetchAll F P B fs ps)) =
       [default "fire" (dr_fleet_type d) +:+ "_FS1_FS1_0"]) /\
  (forall s,
     route B fire 0 (mkRouteRequest (Some (sd_lat st)) (Some (sd_lon st))
                                    (Some (sd_lat st)) (Some (sd_lon st))) = NotOk s ->
     trips (fetchAll F P B fs ps) = SAMPLE_TRIPS).
Proof.
  intros Hin Hd Hmoves Hst Hpolice.
  assert (Hp : forall acc,
             process_fleet B acc (police, fleet_inputs F P fs ps police) =
             Returned (mkAcc (allStations acc ++
                              match optimize_deployment B police (fleet_inputs F P fs ps police) with
                              | Ok d' => flag_stations (default "police" (dr_fleet_type d'))
                                           (activeStationIds acc) (dr_stations d')
                              | _ => []
                              end)
                             (allTrips acc) (activeStationIds acc))).
  { intros acc. destruct Hpolice as [(s & E) | (d' & E & Hm)].
    - rewrite (process_fleet_NotOk _ _ _ _ _ E), E, app_nil_r. now destruct acc.
    - rewrite (process_fleet_Ok _ _ _ _ _ E), E, Hm. cbn. now rewrite app_nil_r. }
  assert (Hf : process_fleet B empty_acc (fire, [Scenario.FS1_input]) =
               (r ← fetch_route B fire (index_stations (dr_stations d)) 0
                      (mkMove "FS1" "FS1" n dist);
                mret (mkAcc (flag_stations (default "fire" (dr_fleet_type d))
                               (add_moves ∅ (dr_moves d)) (dr_stations d))
                            (assemble_trips (default "fire" (dr_fleet_type d)) [r])
                            (add_moves ∅ (dr_moves d))))).
  { rewrite (process_fleet_Ok _ _ _ _ _ Hd), Hmoves. cbn.
    now destruct (fetch_route B fire _ 0 _). }
  unfold fetchAll, run_fleets, fleetConfigs. cbn [process_fleets].
  change (default F fs) with (fleet_inputs F P fs ps fire).
  change (default P ps) with (fleet_inputs F P fs ps police).
  rewrite Hin, Hf. unfold fetch_route. cbn [from_station_id to_station_id]. rewrite Hst.
  cbn [truthy_value negb orb number_property].
  split.
  - intros json ->. cbn [mbind Outcome_bind mret Outcome_ret]. rewrite Hp.
    cbn [mbind Outcome_bind mret Outcome_ret trips allTrips].
    split; reflexivity.
  - intros s ->. cbn [mbind Outcome_bind mret Outcome_ret]. rewrite Hp. reflexivity.
Qed.

End Run.

(** *** The scenarios *)

Import Scenario.

(** C1 as stated fails when the succeeding fleet has no trip: the fire
    request is not ok, the police deployment succeeds without a move,
    and the trip list is not the (empty) list of the police trips but
    the fallback trip, a fire trip. *)
Lemma fallback_joins_a_run_with_one_quiet_fleet :
  optimize_deployment police_only_quiet fire [] = NotOk 500 /\
  optimize_deployment police_only_quiet police []
    = Ok (mkDeployment (Some "police") "2024-05-01T12:00:00Z" [PS1] [] 0) /\
  assemble_trips "police" [] = [] /\
  map st_base (stations (fetchAll [] [] police_only_quiet None None)) = [PS1] /\
  trips (fetchAll [] [] police_only_quiet None None) = SAMPLE_TRIPS /\
  map trip_fleet_type (trips (fetchAll [] [] police_only_quiet None None)) = ["fire"] /\
  trips (fetchAll [] [] police_only_quiet None None) <> assemble_trips "police" [].
Proof. repeat split; try reflexivity. discriminate. Qed.

Lemma one_fleet_failing_witness :
  police <> fire /\
  map st_base (stations (fetchAll [] [] empty_route None None)) = [FS1; FS2] /\
  Forall (fun st =>
            st_fleet_type st = "fire" /\
            (st_inMove st = true <->
             In (station_id st) (move_endpoints [mkMove "FS1" "FS2" 1 2.5])))
         (stations (fetchAll [] [] empty_route None None)) /\
  trips (fetchAll [] [] empty_route None None) =
    [trip_of_entry "fire" 0
       (mkRouteEntry (mkRouteJson []) (mkMove "FS1" "FS2" 1 2.5) (VStation FS1) (VStation FS2))].
Proof.
  split; [discriminate|].
  apply (one_fleet_failing_leaves_the_other [] [] empty_route None None police fire 503
           (mkDeployment (Some "fire") "2024-05-01T12:00:00Z" [FS1; FS2]
              [mkMove "FS1" "FS2" 1 2.5] 2.5)
           [Some (mkRouteEntry (mkRouteJson []) (mkMove "FS1" "FS2" 1 2.5)
                    (VStation FS1) (VStation FS2))]);
    [discriminate | reflexivity | reflexivity | reflexivity].
Defined.

Lemma zero_trips_witness :
  trips (fetchAll [] [] police_only_quiet None None) = SAMPLE_TRIPS /\
  map trip_id (trips (fetchAll [] [] police_only_quiet None None)) = ["veh_101"] /\
  Forall (fun t => fromStationId t = None /\ toStationId t = None)
    (trips (fetchAll [] [] police_only_quiet None None)) /\
  context_moves (Some (trips (fetchAll [] [] police_only_quiet None None))) = [].
Proof.
  apply (zero_trips_give_the_fallback_trip [] [] police_only_quiet None None).
  reflexivity.
Defined.

(** C3 as stated fails: the route of the move FS1 to FS2 comes back ok
    with no point, and the trip list holds the trip of that move, with
    an empty path. *)
Lemma empty_route_trip_is_not_dropped :
  route empty_route fire 0
    (mkRouteRequest (Some (sd_lat FS1)) (Some (sd_lon FS1))
                    (Some (sd_lat FS2)) (Some (sd_lon FS2)))
    = Ok (mkRouteJson []) /\
  map (fun t => (trip_id t, trip_path t)) (trips (fetchAll [] [] empty_route None None))
    = [("fire_FS1_FS2_0", [])].
Proof. split; reflexivity. Qed.

Lemma empty_route_witness :
  exists t,
    In t (trips (fetchAll [] [] empty_route None None)) /\
    trip_path t = [] /\ trip_id t = "fire_FS1_FS2_0".
Proof.
  destruct (empty_route_still_yields_its_trip [] [] empty_route None None fire
              (mkDeployment (Some "fire") "2024-05-01T12:00:00Z" [FS1; FS2]
                 [mkMove "FS1" "FS2" 1 2.5] 2.5)
              0 (mkMove "FS1" "FS2" 1 2.5) (VStation FS1) (VStation FS2)
              match run_fleets [] [] empty_route None None with
              | Returned acc => acc
              | Threw => empty_acc
              end
              eq_refl eq_refl eq_refl eq_refl eq_refl eq_refl eq_refl eq_refl)
    as (t & Hin & Hpath & Hid & _).
  exists t. repeat split; assumption.
Defined.

(** C4 as stated fails when the route service answers the request
    FS1 to FS1: the self-move gets its trip, and no fallback. *)
Lemma self_move_gets_a_trip :
  returned_moves (self_move (Ok self_move_route)) fire [FS1_input]
    = [mkMove "FS1" "FS1" 1 0] /\
  map trip_id (trips (fetchAll [] [] (self_move (Ok self_move_route))
                        (Some [FS1_input]) (Some [])))
    = ["fire_FS1_FS1_0"] /\
  trips (fetchAll [] [] (self_move (Ok self_move_route)) (Some [FS1_input]) (Some []))
    <> SAMPLE_TRIPS.
Proof. repeat split; try reflexivity. discriminate. Qed.

Lemma self_move_witness :
  map trip_id (trips (fetchAll [] [] (self_move (Ok self_move_route))
                        (Some [FS1_input]) (Some [])))
    = ["fire_FS1_FS1_0"] /\
  trips (fetchAll [] [] (self_move (NotOk 500)) (Some [FS1_input]) (Some []))
    = SAMPLE_TRIPS.
Proof.
  split.
  - destruct (self_move_is_routed_like_any_move [] [] (self_move (Ok self_move_route))
                (Some [FS1_input]) (Some [])
                (mkDeployment (Some "fire") "2024-05-01T12:00:00Z" [FS1]
                   [mkMove "FS1" "FS1" 1 0] 0) FS1 1 0
                eq_refl eq_refl eq_refl eq_refl
                (or_intror (ex_intro _ (mkDeployment (Some "police") "2024-05-01T12:00:00Z"
                                          [] [] 0)
                                     (conj eq_refl eq_refl))))
      as (Hok & _).
    exact (proj2 (Hok self_move_route eq_refl)).
  - destruct (self_move_is_routed_like_any_move [] [] (self_move (NotOk 500))
                (Some [FS1_input]) (Some [])
                (mkDeployment (Some "fire") "2024-05-01T12:00:00Z" [FS1]
                   [mkMove "FS1" "FS1" 1 0] 0) FS1 1 0
                eq_refl eq_refl eq_refl eq_refl
                (or_intror (ex_intro _ (mkDeployment (Some "police") "2024-05-01T12:00:00Z"
                                          [] [] 0)
                                     (conj eq_refl eq_refl))))
      as (_ & Hnot).
    exact (Hnot 500%nat eq_refl).
Defined.

(** C5. The claim fails, by a defect of the code, as soon as the two
    fleets share a station id. The set [activeStationIds] is declared
    once, before the loop over the fleets, and never emptied. So a
    police station is flagged by a fire move: the police deployment
    recommends no move and its station S1 is flagged all the same,
    because the fire deployment moves its own S1. With the two
    deployments exchanged the fire station S1 is not flagged by the
    police move: the flag of a station depends on the order in which
    the fleets are processed. *)
Theorem police_station_flagged_by_a_fire_move :
  returned_moves shared_station_id police [] = [] /\
  returned_moves shared_station_id fire [] = [mkMove "S1" "S2" 1 2.5] /\
  stations (fetchAll [] [] shared_station_id None None)
    = [mkStation S1_fire "fire" true; mkStation S2_fire "fire" true;
       mkStation S1_police "police" true] /\
  returned_moves shared_station_id_exchanged fire [] = [] /\
  returned_moves shared_station_id_exchanged police [] = [mkMove "S1" "S2" 1 2.5] /\
  stations (fetchAll [] [] shared_station_id_exchanged None None)
    = [mkStation S1_fire "fire" false;
       mkStation S1_police "police" true; mkStation S2_police "police" true].
Proof. repeat split; reflexivity. Qed.

End Orchestrator.

(** * Further properties *)

(** ** Colours *)

Module Colours.
Import NumberOrder.

(** A number below a threshold keeps every smaller number below it. *)
Lemma below_threshold (r1 r2 c : float) :
  (r1 <=? r2) = true -> (r2 <? c) = true -> (r1 <? c) = true.
Proof. apply leb_ltb_trans. Qed.

(** X1. The opacity of a grid cell grows with its risk: between two
    risks in order, the alpha of [riskToColor] is in the same order;
    and a cell is fully transparent exactly when its risk is below
    [0.15]. *)
Theorem riskToColor_opacity_grows_with_risk (r1 r2 : float) :
  (r1 <=? r2) = true ->
  (alpha (riskToColor r1) <= alpha (riskToColor r2))%N /\
  (alpha (riskToColor r1) = 0%N <-> (r1 <? 0.15) = true).
Proof.
  intros Hle. unfold riskToColor. split.
  - pose proof (below_threshold r1 r2 0.15 Hle) as H1.
    pose proof (below_threshold r1 r2 0.4 Hle) as H2.
    pose proof (below_threshold r1 r2 0.7 Hle) as H3.
    destruct (r2 <? 0.15); [rewrite H1 by reflexivity; cbn; lia|].
    destruct (r2 <? 0.4).
    { rewrite H2 by reflexivity. destruct (r1 <? 0.15); cbn; lia. }
    destruct (r2 <? 0.7).
    { rewrite H3 by reflexivity. destruct (r1 <? 0.15), (r1 <? 0.4); cbn; lia. }
    destruct (r1 <? 0.15), (r1 <? 0.4), (r1 <? 0.7); cbn; lia.
  - destruct (r1 <? 0.15), (r1 <? 0.4), (r1 <? 0.7); cbn; split; congruence.
Qed.

Lemma riskToColor_witness :
  (0.2 <=? 0.5) = true /\
  (alpha (riskToColor 0.2) <= alpha (riskToColor 0.5))%N /\
  (alpha (riskToColor 0.2) = 0%N <-> (0.2 <? 0.15) = true).
Proof.
  split; [reflexivity|].
  apply (riskToColor_opacity_grows_with_risk 0.2 0.5). reflexivity.
Defined.

End Colours.

(** ** Risk grid loader *)

Module RiskLoader.
Import NumberOrder PlaybackClock.

Lemma nan_not_below (x y : float) : PrimFloat.is_nan x = true -> (x <? y) = false.
Proof.
  intros H. destruct (x <? y) eqn:E; [|reflexivity].
  apply ltb_not_nan in E. destruct E. congruence.
Qed.

Lemma nan_not_above (x y : float) : PrimFloat.is_nan x = true -> (y <? x) = false.
Proof.
  intros H. destruct (y <? x) eqn:E; [|reflexivity].
  apply ltb_not_nan in E. destruct E. congruence.
Qed.

Lemma Math_min2_spec (a b : float) :
  PrimFloat.is_nan a = false -> PrimFloat.is_nan b = false ->
  (Math_min2 a b = a \/ Math_min2 a b = b) /\
  (Math_min2 a b <=? a) = true /\ (Math_min2 a b <=? b) = true.
Proof.
  intros Ha Hb. unfold Math_min2. rewrite Ha, Hb.
  destruct (a <? b) eqn:Hab.
  { repeat split; auto using ltb_leb, leb_refl. }
  destruct (b <? a) eqn:Hba.
  { repeat split; auto using ltb_leb, leb_refl. }
  pose proof (not_ltb_leb _ _ Ha Hb Hab).
  pose proof (not_ltb_leb _ _ Hb Ha Hba).
  destruct (PrimFloat.get_sign a); repeat split; auto using leb_refl.
Qed.

(** [Math.max(a, b)] is never below a bound [b] that is a number, and
    [Math.min(a, b)] never above it, NaN included. *)
Lemma Math_max_never_below (a b : float) :
  PrimFloat.is_nan b = false -> (Math_max [a; b] <? b) = false.
Proof.
  intros Hb. unfold Math_max. cbn [foldl].
  destruct (PrimFloat.is_nan (Math_max2 neg_infinity a)) eqn:Hm.
  - unfold Math_max2 at 1. rewrite Hm. now apply nan_not_below.
  - apply leb_not_ltb. now apply Math_max2_spec.
Qed.

Lemma Math_min_never_above (a b : float) :
  PrimFloat.is_nan b = false -> (b <? Math_min [a; b]) = false.
Proof.
  intros Hb. unfold Math_min. cbn [foldl].
  destruct (PrimFloat.is_nan (Math_min2 infinity a)) eqn:Hm.
  - unfold Math_min2 at 1. rewrite Hm. now apply nan_not_above.
  - apply leb_not_ltb. now apply Math_min2_spec.
Qed.

(** Clipping from below does not bring an edge back under the other
    bound: [Math.max(a, lo)] is above [hi] exactly when [a] is; and
    likewise for [Math.min]. *)
Lemma Math_max_other_side (a lo hi : float) :
  PrimFloat.is_nan lo = false ->
  (hi <? lo) = false -> (hi <? neg_infinity) = false ->
  (hi <? Math_max [a; lo]) = (hi <? a).
Proof.
  intros Hlo Hhl Hhn. unfold Math_max. cbn [foldl].
  destruct (PrimFloat.is_nan a) eqn:Ha.
  { assert (E : Math_max2 neg_infinity a = a) by (unfold Math_max2; cbn; now rewrite Ha).
    rewrite E. unfold Math_max2. now rewrite Ha. }
  destruct (Math_max2_spec neg_infinity a eq_refl Ha) as (X & _ & Hax).
  pose proof (proj2 (leb_not_nan _ _ Hax)) as Hx.
  destruct (Math_max2_spec _ lo Hx Hlo) as (M & Hxm & _).
  destruct (hi <? a) eqn:E.
  - eapply ltb_leb_trans; [exact E|]. eapply leb_trans; eassumption.
  - destruct M as [-> | ->]; [|exact Hhl]. now destruct X as [-> | ->].
Qed.

Lemma Math_min_other_side (a lo hi : float) :
  PrimFloat.is_nan hi = false ->
  (hi <? lo) = false -> (infinity <? lo) = false ->
  (Math_min [a; hi] <? lo) = (a <? lo).
Proof.
  intros Hhi Hhl Hil. unfold Math_min. cbn [foldl].
  destruct (PrimFloat.is_nan a) eqn:Ha.
  { assert (E : Math_min2 infinity a = a) by (unfold Math_min2; cbn; now rewrite Ha).
    rewrite E. unfold Math_min2. now rewrite Ha. }
  destruct (Math_min2_spec infinity a eq_refl Ha) as (X & _ & Hxa).
  pose proof (proj1 (leb_not_nan _ _ Hxa)) as Hx.
  destruct (Math_min2_spec _ hi Hx Hhi) as (M & Hmx & _).
  destruct (a <? lo) eqn:E.
  - eapply leb_ltb_trans; [|exact E]. eapply leb_trans; eassumption.
  - destruct M as [-> | ->]; [|exact Hhl]. now destruct X as [-> | ->].
Qed.

(** X2. [fetchRisk] clips each edge of a cell on its own side only: the
    south and west edges are never below the minimum of the grid, the
    north and east edges never above its maximum; but the south edge is
    beyond the north bound of the grid exactly when it was before the
    clipping, and so on for the three other edges, so that the cell of
    a row that lies outside the grid reaches beyond it, with its edges
    exchanged. A successful answer gives one cell per row, in the order
    of the rows, with the cell id and the risk of its row; any other
    answer gives no cell. *)
Theorem fetchRisk_cells_stay_within_the_grid
    (Number_toString : float -> string) (res : Response (list RiskApiCell)) :
  Forall (fun c =>
            (minLat c <? GRID_MIN_LAT) = false /\ (GRID_MAX_LAT <? maxLat c) = false /\
            (minLon c <? GRID_MIN_LON) = false /\ (GRID_MAX_LON <? maxLon c) = false)
         (fetchRisk Number_toString res) /\
  (forall data, res = Ok data ->
     map cellId (fetchRisk Number_toString res) = map cell_id data /\
     map risk (fetchRisk Number_toString res) = map risk_score data /\
     Forall2 (fun row c =>
                (GRID_MAX_LAT <? minLat c) = (GRID_MAX_LAT <? ra_lat row - GRID_LAT_STEP / 2) /\
                (maxLat c <? GRID_MIN_LAT) = (ra_lat row + GRID_LAT_STEP / 2 <? GRID_MIN_LAT) /\
                (GRID_MAX_LON <? minLon c) = (GRID_MAX_LON <? ra_lon row - GRID_LON_STEP / 2) /\
                (maxLon c <? GRID_MIN_LON) = (ra_lon row + GRID_LON_STEP / 2 <? GRID_MIN_LON))
             data (fetchRisk Number_toString res)) /\
  ((forall data, res <> Ok data) -> fetchRisk Number_toString res = []) /\
  map (fun c => (minLat c, maxLat c))
      (fetchRisk Number_toString (Ok [mkRiskApiCell 7 0.5 48.5 (-122.3)]))
  = [(48.495, GRID_MAX_LAT)].
Proof.
  split; [|split; [|split]].
  - destruct res as [|status|data]; cbn [fetchRisk]; try constructor.
    apply Forall_forall. intros c Hc. apply list_elem_of_In, in_map_iff in Hc.
    destruct Hc as (row & <- & _). cbn [cell_of_row minLat maxLat minLon maxLon].
    repeat split;
      first [ now apply Math_max_never_below | now apply Math_min_never_above ].
  - intros data ->. cbn [fetchRisk]. rewrite !map_map.
    split; [reflexivity|]. split; [reflexivity|].
    induction data as [|row data IH]; cbn [map]; constructor; [|exact IH].
    cbn [cell_of_row minLat maxLat minLon maxLon].
    repeat split;
      first [ now apply Math_max_other_side | now apply Math_min_other_side ].
  - intros H. destruct res as [|status|data]; try reflexivity.
    now destruct (H data).
  - reflexivity.
Qed.

End RiskLoader.

(** ** Resolution of the selection and context snapshot *)

Module Snapshot.

Lemma find_first {A} (f : A -> bool) (l : list A) (x : A) :
  List.find f l = Some x ->
  exists before after,
    l = before ++ x :: after /\ f x = true /\ Forall (fun y => f y = false) before.
Proof.
  induction l as [|y l IH]; [discriminate|]. cbn. destruct (f y) eqn:E.
  - intros [= ->]. exists [], l. auto.
  - intros H. destruct (IH H) as (before & after & -> & Hx & Hb).
    exists (y :: before), after. auto.
Qed.

Lemma find_at_first {A} (f : A -> bool) (before after : list A) (x : A) :
  f x = true -> Forall (fun y => f y = false) before ->
  List.find f (before ++ x :: after) = Some x.
Proof.
  intros Hx Hb. induction Hb as [|y before Hy _ IH]; cbn [app List.find].
  - now rewrite Hx.
  - now rewrite Hy.
Qed.

(** X3. A selected station identifier is resolved against the current
    station list: the result is the first station of the list with that
    id, whenever there is one and the id is not the empty string; it is
    absent when no station has the id, and also whenever the id is the
    empty string, even if a station has the empty id. *)
Theorem selectedStation_resolves_the_identifier (sts : list Station) (id : string) :
  (forall before s after,
     id <> "" -> sts = before ++ s :: after -> station_id s = id ->
     Forall (fun s' => station_id s' <> id) before ->
     selectedStation sts (Some id) = Some s) /\
  (forall s, selectedStation sts (Some id) = Some s ->
     id <> "" /\
     exists before after,
       sts = before ++ s :: after /\ station_id s = id /\
       Forall (fun s' => station_id s' <> id) before) /\
  ((forall s, In s sts -> station_id s <> id) -> selectedStation sts (Some id) = None) /\
  selectedStation sts (Some "") = None /\
  selectedStation sts None = None.
Proof.
  split; [|split; [|split; [|split]]]; try reflexivity.
  - intros before s after Hid -> Hs Hb. unfold selectedStation, no_id, truthy.
    apply String.eqb_neq in Hid. rewrite Hid. cbn [negb].
    apply find_at_first; [now apply String.eqb_eq|].
    eapply Forall_impl; [exact Hb|]. cbn. intros s'. apply String.eqb_neq.
  - intros s. unfold selectedStation, no_id, truthy.
    destruct (String.eqb id "") eqn:E; cbn; [discriminate|]. intros H.
    apply String.eqb_neq in E. split; [exact E|].
    destruct (find_first _ _ _ H) as (before & after & -> & Hs & Hb).
    exists before, after. split; [reflexivity|]. split; [now apply String.eqb_eq|].
    eapply Forall_impl; [exact Hb|]. cbn. intros s'. apply String.eqb_neq.
  - intros H. unfold selectedStation. destruct (no_id (Some id)); [reflexivity|].
    destruct (List.find _ sts) as [s|] eqn:E; [|reflexivity].
    apply find_some in E. destruct E as [Hin Heq].
    apply String.eqb_eq in Heq. now destruct (H s Hin).
Qed.

Lemma filter_sublist {A} (f : A -> bool) (l : list A) : sublist (List.filter f l) l.
Proof.
  induction l as [|x l IH]; cbn; [constructor|].
  destruct (f x); now constructor.
Qed.

Lemma map_sublist {A B} (g : A -> B) (l1 l2 : list A) :
  sublist l1 l2 -> sublist (map g l1) (map g l2).
Proof. induction 1; cbn; now constructor. Qed.

Lemma filter_sublist_mono {A} (f : A -> bool) (l1 l2 : list A) :
  sublist l1 l2 -> sublist (List.filter f l1) (List.filter f l2).
Proof.
  induction 1 as [|x l1 l2 _ IH|x l1 l2 _ IH]; cbn; [constructor| |].
  - destruct (f x); [now constructor | exact IH].
  - destruct (f x); [now constructor | exact IH].
Qed.

(** X4. The moves of the context snapshot are at most 20; each has both
    station ids, neither of them empty; and they are taken from the
    trips in the order of the trips. *)
Theorem context_moves_are_capped_and_complete (trips : option (list Trip)) :
  (length (context_moves trips) <= 20)%nat /\
  Forall (fun m => exists a b,
            mc_from_station_id m = Some a /\ mc_to_station_id m = Some b /\
            a <> "" /\ b <> "")
         (context_moves trips) /\
  sublist (context_moves trips)
    (map (fun t => mkMoveContext (fromStationId t) (toStationId t) (trip_fleet_type t))
         (default [] trips)).
Proof.
  unfold context_moves. split; [|split].
  - rewrite length_take. lia.
  - apply Forall_take, Forall_forall. intros m Hm.
    apply list_elem_of_In, filter_In in Hm. destruct Hm as [_ Hm].
    apply andb_true_iff in Hm. destruct Hm as [Hf Ht]. unfold truthy in Hf, Ht.
    destruct (mc_from_station_id m) as [a|]; [|discriminate].
    destruct (mc_to_station_id m) as [b|]; [|discriminate].
    exists a, b. apply negb_true_iff in Hf, Ht.
    repeat split; try reflexivity; now apply String.eqb_neq.
  - etransitivity; [apply sublist_take | apply filter_sublist].
Qed.

(** X5. Every id of [moving_station_ids] is the non-empty id of a
    station that is flagged in-move, and the list is a sublist of
    [station_ids]. *)
Theorem moving_station_ids_are_station_ids (sts : list Station) :
  sublist (context_moving_station_ids sts) (context_station_ids sts) /\
  forall i, In i (context_moving_station_ids sts) ->
    i <> "" /\ exists s, In s sts /\ station_id s = i /\ st_inMove s = true.
Proof.
  unfold context_moving_station_ids, context_station_ids. split.
  - apply filter_sublist_mono, map_sublist, filter_sublist.
  - intros i Hi. apply filter_In in Hi. destruct Hi as [Hi Hne].
    apply negb_true_iff, String.eqb_neq in Hne. split; [exact Hne|].
    apply in_map_iff in Hi. destruct Hi as (s & <- & Hs).
    apply filter_In in Hs. destruct Hs as [Hs Hm]. eauto.
Qed.

End Snapshot.

(** ** Layer composition *)

Module LayerFacts.
Import Layers.

Lemma splice_exchange_down {A} (P Q : list A) (x y : A) :
  splice_in (S (length P)) x (splice_out (length P) (P ++ x :: y :: Q))
  = P ++ y :: x :: Q.
Proof.
  unfold splice_in, splice_out. induction P as [|p P IH]; [reflexivity|].
  cbn [length app]. cbn [delete list_delete take drop app].
  f_equal. exact IH.
Qed.

Lemma splice_exchange_up {A} (P Q : list A) (x y : A) :
  splice_in (length P) y (splice_out (S (length P)) (P ++ x :: y :: Q))
  = P ++ y :: x :: Q.
Proof.
  unfold splice_in, splice_out. induction P as [|p P IH]; [reflexivity|].
  cbn [length app]. cbn [delete list_delete take drop app].
  f_equal. exact IH.
Qed.

Lemma Some_fmap_inj {A} (l1 l2 : list A) : Some <$> l1 = Some <$> l2 -> l1 = l2.
Proof.
  revert l2. induction l1 as [|x l1 IH]; intros [|y l2]; cbn; try discriminate.
  - reflexivity.
  - intros [= -> H]. f_equal. now apply IH.
Qed.

Lemma split_at_neighbours {A} (l : list A) (i : nat) :
  (S i < length l)%nat ->
  exists pre a b post, l = pre ++ a :: b :: post /\ length pre = i.
Proof.
  revert l. induction i as [|i IH]; intros l H.
  - destruct l as [|a [|b post]]; cbn in H; try lia. now exists [], a, b, post.
  - destruct l as [|x l]; cbn in H; [lia|].
    destruct (IH l ltac:(lia)) as (pre & a & b & post & -> & <-).
    now exists (x :: pre), a, b, post.
Qed.

Lemma moveLayer_exchange (pre post : list LayerConfig) (a b : LayerConfig) :
  moveLayer (length pre) down (pre ++ a :: b :: post) = Some <$> (pre ++ b :: a :: post) /\
  moveLayer (S (length pre)) up (pre ++ a :: b :: post) = Some <$> (pre ++ b :: a :: post).
Proof.
  assert (Hlen : length (Some <$> (pre ++ a :: b :: post))
                 = (length pre + 2 + length post)%nat).
  { rewrite length_fmap, length_app. cbn. lia. }
  assert (Hmap : Some <$> (pre ++ a :: b :: post)
                 = (Some <$> pre) ++ Some a :: Some b :: (Some <$> post)).
  { now rewrite fmap_app. }
  assert (Hpre : length (Some <$> pre : list (option LayerConfig)) = length pre)
    by apply length_fmap.
  unfold moveLayer. rewrite Hlen. split.
  - destruct (_ || _)%bool eqn:E.
    { apply orb_true_iff in E. destruct E as [E | E]; apply Z.ltb_lt in E || apply Z.leb_le in E; lia. }
    replace (Z.to_nat (Z.of_nat (length pre) + 1)) with (S (length pre)) by lia.
    rewrite Hmap. rewrite <- Hpre at 1 2 3.
    rewrite list_lookup_middle by reflexivity. cbn [mjoin option_join].
    rewrite splice_exchange_down. now rewrite fmap_app.
  - destruct (_ || _)%bool eqn:E.
    { apply orb_true_iff in E. destruct E as [E | E]; apply Z.ltb_lt in E || apply Z.leb_le in E; lia. }
    replace (Z.to_nat (Z.of_nat (S (length pre)) - 1)) with (length pre) by lia.
    rewrite Hmap. rewrite <- Hpre at 1 2 3.
    change (Some a :: Some b :: (Some <$> post))
      with ([Some a] ++ Some b :: (Some <$> post)).
    rewrite app_assoc.
    replace (S (length (Some <$> pre))) with (length ((Some <$> pre) ++ [Some a]))
      by (rewrite length_app; cbn; lia).
    rewrite list_lookup_middle by reflexivity. cbn [mjoin option_join].
    rewrite length_app. cbn [length]. rewrite Nat.add_1_r.
    rewrite <- app_assoc. cbn [app].
    rewrite splice_exchange_up. now rewrite fmap_app.
Qed.

(** X6. Moving an entry down, or the entry after it up, exchanges the
    two and leaves every other entry in place. *)
Theorem moveLayer_exchanges_neighbours (pre post : list LayerConfig) (a b : LayerConfig) :
  moveLayer (length pre) down (pre ++ a :: b :: post) = Some <$> (pre ++ b :: a :: post) /\
  moveLayer (S (length pre)) up (pre ++ a :: b :: post) = Some <$> (pre ++ b :: a :: post).
Proof. exact (moveLayer_exchange pre post a b). Qed.

Lemma moveLayer_down_at_end (index : nat) (prev : list LayerConfig) :
  (length prev <= S index)%nat -> moveLayer index down prev = Some <$> prev.
Proof.
  intros H. unfold moveLayer. rewrite length_fmap.
  replace (Z.of_nat (length prev) <=? Z.of_nat index + 1)%Z with true
    by (symmetry; apply Z.leb_le; lia).
  now rewrite orb_true_r.
Qed.

Lemma delete_beyond {A} (l : list A) (i : nat) : (length l <= i)%nat -> delete i l = l.
Proof.
  intros H. rewrite delete_take_drop, take_ge, drop_ge by lia. apply app_nil_r.
Qed.

(** X7. At the boundaries [moveLayer] returns the list as it is: the
    first entry does not move up, the last does not move down, and an
    index whose target lies outside the list changes nothing. Only
    [index = length] with [up], which no button of the panel produces,
    puts an [undefined] entry into the array. *)
Theorem moveLayer_boundaries (index : nat) (prev : list LayerConfig) :
  moveLayer 0 up prev = Some <$> prev /\
  ((length prev <= S index)%nat -> moveLayer index down prev = Some <$> prev) /\
  ((length prev < index)%nat -> moveLayer index up prev = Some <$> prev) /\
  (prev <> [] ->
     In None (moveLayer (length prev) up prev) /\
     length (moveLayer (length prev) up prev) = S (length prev)).
Proof.
  split; [reflexivity|]. split; [|split].
  - apply moveLayer_down_at_end.
  - intros H. unfold moveLayer. rewrite length_fmap.
    replace (Z.of_nat (length prev) <=? Z.of_nat index - 1)%Z with true
      by (symmetry; apply Z.leb_le; lia).
    now rewrite orb_true_r.
  - intros H. assert (Hlen : (0 < length prev)%nat) by (destruct prev; cbn; [congruence | lia]).
    unfold moveLayer. rewrite length_fmap.
    destruct (_ || _)%bool eqn:E.
    { apply orb_true_iff in E. destruct E as [E | E]; apply Z.ltb_lt in E || apply Z.leb_le in E; lia. }
    rewrite (lookup_ge_None_2 (Some <$> prev) (length prev)) by (rewrite length_fmap; lia).
    cbn [mjoin option_join]. unfold splice_in, splice_out.
    rewrite delete_beyond by (rewrite length_fmap; lia). split.
    + apply in_or_app. right. now left.
    + rewrite length_app. cbn [length]. rewrite length_take, length_drop, length_fmap. lia.
Qed.

Lemma moveLayer_cases (index : nat) (dir : Direction) (prev next : list LayerConfig) :
  (index < length prev)%nat ->
  moveLayer index dir prev = Some <$> next ->
  next = prev \/
  exists pre a b post,
    prev = pre ++ a :: b :: post /\ next = pre ++ b :: a :: post /\
    (index = length pre /\ dir = down \/ index = S (length pre) /\ dir = up).
Proof.
  intros Hi Hm. destruct dir.
  - destruct index as [|i].
    + left. apply Some_fmap_inj. rewrite <- Hm. reflexivity.
    + right. destruct (split_at_neighbours prev i Hi) as (pre & a & b & post & -> & <-).
      rewrite (proj2 (moveLayer_exchange pre post a b)) in Hm.
      apply Some_fmap_inj in Hm. subst next. exists pre, a, b, post. auto.
  - destruct (decide (S index < length prev)%nat) as [Hlt | Hge].
    + right. destruct (split_at_neighbours prev index Hlt) as (pre & a & b & post & -> & <-).
      rewrite (proj1 (moveLayer_exchange pre post a b)) in Hm.
      apply Some_fmap_inj in Hm. subst next. exists pre, a, b, post. auto.
    + left. apply Some_fmap_inj. rewrite <- Hm.
      apply moveLayer_down_at_end. lia.
Qed.



Definition identity (c : LayerConfig) : LayerKey * string := (key c, label c).

Lemma toggle_keeps_identity (k : LayerKey) (l : list LayerConfig) :
  map identity (toggleLayerVisibility k l) = map identity l.
Proof.
  unfold toggleLayerVisibility. rewrite map_map. apply map_ext.
  intros c. now destruct (LayerKey_eqb (key c) k).
Qed.

Lemma layer_step_keeps_identities (prev next : list LayerConfig) :
  layer_step prev next -> map identity next ≡ₚ map identity prev.
Proof.
  intros [index dir prev' next' Hi Hm | k prev'].
  - destruct (moveLayer_cases _ _ _ _ Hi Hm) as [-> | (pre & a & b & post & -> & -> & _)];
      [reflexivity|].
    rewrite !map_app. cbn [map]. apply Permutation_app_head, perm_swap.
  - now rewrite toggle_keeps_identity.
Qed.

(** X9. Whatever is done in the layer panel, the list keeps the four
    layers it starts with, each once and with its label: reordering and
    toggling never lose, duplicate or rename a layer. *)
Theorem layer_list_keeps_its_four_layers (l : list LayerConfig) :
  rtc layer_step initial_layerConfig l ->
  map identity l ≡ₚ map identity initial_layerConfig /\
  length l = 4%nat /\
  NoDup (map key l).
Proof.
  intros H.
  assert (Hp : map identity l ≡ₚ map identity initial_layerConfig).
  { revert l H.
    apply (rtc_ind_r (fun l => map identity l ≡ₚ map identity initial_layerConfig));
      [reflexivity|].
    intros y z _ Hstep IH.
    etransitivity; [exact (layer_step_keeps_identities _ _ Hstep) | exact IH]. }
  split; [exact Hp|]. split.
  - apply Permutation_length in Hp. now rewrite !length_map in Hp.
  - assert (Hk : map key l ≡ₚ map key initial_layerConfig).
    { replace (map key l) with (map fst (map identity l)) by (now rewrite map_map).
      replace (map key initial_layerConfig)
        with (map fst (map identity initial_layerConfig)) by reflexivity.
      now apply Permutation_map. }
    rewrite Hk. cbn. repeat constructor; rewrite ?elem_of_cons, ?elem_of_nil;
      intuition discriminate.
Qed.

Lemma layer_list_witness :
  length (toggleLayerVisibility heatmap initial_layerConfig) = 4%nat /\
  NoDup (map key (toggleLayerVisibility heatmap initial_layerConfig)).
Proof.
  apply (layer_list_keeps_its_four_layers (toggleLayerVisibility heatmap initial_layerConfig)).
  apply rtc_once, step_toggle.
Defined.

Lemma LayerKey_eqb_eq (a b : LayerKey) : LayerKey_eqb a b = true <-> a = b.
Proof. destruct a, b; cbn; split; congruence. Qed.

(** X10. Toggling the visibility of a layer twice gives the list back,
    and toggles of two layers can be done in either order. *)
Theorem toggleLayerVisibility_involutive (k k' : LayerKey) (l : list LayerConfig) :
  toggleLayerVisibility k (toggleLayerVisibility k l) = l /\
  toggleLayerVisibility k (toggleLayerVisibility k' l)
  = toggleLayerVisibility k' (toggleLayerVisibility k l).
Proof.
  unfold toggleLayerVisibility. rewrite !map_map. split.
  - rewrite <- (map_id l) at 2. apply map_ext. intros [ck cl cv]. cbn.
    destruct (LayerKey_eqb ck k) eqn:E; cbn; rewrite ?E; [|reflexivity].
    now rewrite negb_involutive.
  - apply map_ext. intros [ck cl cv]. cbn.
    destruct (LayerKey_eqb ck k) eqn:E, (LayerKey_eqb ck k') eqn:E'; cbn;
      rewrite ?E, ?E'; reflexivity.
Qed.

(** X11. Exchanging two neighbouring entries of which one is hidden does
    not change the layers that are drawn, nor their paint order; and
    nothing is drawn before the trips are loaded. *)
Theorem hidden_layer_moves_unseen (trips : option (list Trip))
    (pre post : list LayerConfig) (a b : LayerConfig) :
  visible a = false \/ visible b = false ->
  layers trips (pre ++ b :: a :: post) = layers trips (pre ++ a :: b :: post) /\
  layers None (pre ++ a :: b :: post) = [].
Proof.
  intros H. split; [|reflexivity]. unfold layers. destruct trips; [|reflexivity].
  rewrite !flat_map_app. f_equal. cbn [flat_map].
  destruct H as [-> | ->]; cbn [app]; reflexivity.
Qed.

Lemma hidden_layer_witness :
  layers (Some SAMPLE_TRIPS)
    [mkLayerConfig vehicles "Vehicle paths" true; mkLayerConfig heatmap "Risk grid" false]
  = layers (Some SAMPLE_TRIPS)
    [mkLayerConfig heatmap "Risk grid" false; mkLayerConfig vehicles "Vehicle paths" true].
Proof.
  apply (hidden_layer_moves_unseen (Some SAMPLE_TRIPS) [] []
           (mkLayerConfig heatmap "Risk grid" false)
           (mkLayerConfig vehicles "Vehicle paths" true)).
  left. reflexivity.
Defined.

End LayerFacts.

(** ** Navigation of the home page *)

Module HomeFacts.
Import Home.

Lemma nav_step_invariant (s : Nav) (e : NavEvent) :
  (chatOpen s = true -> activePanel s = vehicles) ->
  chatOpen (nav_step s e) = true -> activePanel (nav_step s e) = vehicles.
Proof.
  destruct e as [[p|]|]; cbn; try discriminate; auto.
Qed.

(** X12. The chat is open only over the vehicles panel: after any
    sequence of clicks in the sidebar and on the close button of the
    chat, an open chat means that the vehicles panel is the active one,
    so that an open chat is always on screen; and going to the station
    editor closes the chat. *)
Theorem chat_is_open_only_over_the_map (events : list NavEvent) (s : Nav) :
  (chatOpen (foldl nav_step initial_nav events) = true ->
   activePanel (foldl nav_step initial_nav events) = vehicles) /\
  chat_shown (foldl nav_step initial_nav events) = chatOpen (foldl nav_step initial_nav events) /\
  chatOpen (handleNavClick (panel stations) s) = false.
Proof.
  assert (H : forall s0, (chatOpen s0 = true -> activePanel s0 = vehicles) ->
                         chatOpen (foldl nav_step s0 events) = true ->
                         activePanel (foldl nav_step s0 events) = vehicles).
  { induction events as [|e events IH]; intros s0 H0; [exact H0|].
    cbn [foldl]. apply IH. now apply nav_step_invariant. }
  specialize (H initial_nav ltac:(discriminate)).
  split; [exact H|]. split; [|reflexivity].
  unfold chat_shown. destruct (chatOpen (foldl nav_step initial_nav events)) eqn:E.
  - now rewrite H.
  - now destruct (activePanel _).
Qed.

End HomeFacts.

(** ** Station editor *)

Module StationEditorFacts.
Import StationEditor.

Lemma filter_index_past {A} (target i : nat) (a : list A) :
  (target < i)%nat -> filter_index (fun k => negb (Nat.eqb k target)) i a = a.
Proof.
  revert i. induction a as [|x a IH]; intros i H; [reflexivity|].
  cbn [filter_index]. replace (Nat.eqb i target) with false
    by (symmetry; apply Nat.eqb_neq; lia).
  cbn [negb]. f_equal. apply IH. lia.
Qed.

Lemma filter_index_delete {A} (index i : nat) (a : list A) :
  filter_index (fun k => negb (Nat.eqb k (i + index))) i a = delete index a.
Proof.
  revert index i. induction a as [|x a IH]; intros index i; [now destruct index|].
  cbn [filter_index]. destruct index as [|index].
  - rewrite Nat.add_0_r, Nat.eqb_refl. cbn [negb].
    apply filter_index_past. lia.
  - replace (Nat.eqb i (i + S index)) with false
      by (symmetry; apply Nat.eqb_neq; lia).
    cbn [negb]. change (delete (S index) (x :: a)) with (x :: delete index a).
    f_equal. rewrite <- (IH index (S i)). f_equal.
    now rewrite Nat.add_succ_r.
Qed.

(** X13. [removeRow] deletes the row at the index and nothing else; an
    index that is not a row leaves the list as it is; and removing the
    row that [addRow] has just added gives the list back. *)
Theorem removeRow_deletes_one_row (h : Store) (stations : StationArray) (index : nat) :
  removeRow index stations = delete index stations /\
  ((length stations <= index)%nat -> removeRow index stations = stations) /\
  ((index < length stations)%nat ->
     length (removeRow index stations) = (length stations - 1)%nat) /\
  removeRow (length stations) (snd (addRow h stations)) = stations.
Proof.
  assert (E : forall a i, removeRow i a = delete i (a : StationArray)).
  { intros a i. unfold removeRow. exact (filter_index_delete i 0 a). }
  split; [apply E|]. split; [|split].
  - intros H. rewrite E, delete_take_drop, take_ge, drop_ge by lia. apply app_nil_r.
  - intros H. rewrite E, length_delete; [lia|]. now apply lookup_lt_is_Some.
  - rewrite E. cbn [addRow snd]. rewrite delete_middle. apply app_nil_r.
Qed.

Section Editor.

Variable Number_of_string : string -> float.

(** X14. [updateField] patches the station object in place. With an
    index that is not a row it changes nothing and does not call
    [onChange]. Otherwise it hands the same rows to [onChange], and
    afterwards every array that holds the object of that row, the old
    list included, reads the new value there, while every other object
    reads as before. *)
Theorem updateField_patches_in_place (h : Store) (stations : StationArray)
    (index : nat) (field : Field) (value : string) :
  (stations !! index = None ->
     updateField Number_of_string h stations index field value = (h, None)) /\
  (forall r, stations !! index = Some r ->
     snd (updateField Number_of_string h stations index field value) = Some stations /\
     forall (other : StationArray) (k : nat) (r' : ref),
       other !! k = Some r' ->
       read (fst (updateField Number_of_string h stations index field value)) other !! k
       = Some (if decide (r' = r)
               then assign Number_of_string field value <$> h !! r
               else h !! r')).
Proof.
  unfold updateField. split.
  - intros ->. reflexivity.
  - intros r ->. cbn [fst snd]. split; [reflexivity|].
    intros other k r' Hk. unfold read. rewrite list_lookup_fmap, Hk. cbn.
    f_equal. destruct (decide (r' = r)) as [-> | Hne].
    + apply lookup_alter_eq.
    + now apply lookup_alter_ne.
Qed.

End Editor.

(** X15. [addRow] appends one new station with an empty id and leaves
    the rows that were there as they are. *)
Theorem addRow_appends_a_blank_station (h : Store) (stations : StationArray) :
  Forall (fun r => is_Some (h !! r)) stations ->
  read (fst (addRow h stations)) (snd (addRow h stations))
  = read h stations ++ [Some new_station] /\
  si_station_id new_station = "".
Proof.
  intros Hwf. split; [|reflexivity]. unfold addRow, read. cbn [fst snd].
  rewrite fmap_app. cbn. rewrite lookup_insert_eq. f_equal.
  apply list_fmap_ext. intros i r Hr.
  apply lookup_insert_ne. intros <-.
  assert (Hin : is_Some (h !! fresh (dom h))).
  { apply (proj1 (Forall_forall _ _) Hwf). apply list_elem_of_lookup. eauto. }
  apply elem_of_dom in Hin. exact (is_fresh (dom h) Hin).
Qed.

Lemma addRow_witness :
  read (fst (addRow {[1%positive := new_station]} [1%positive]))
       (snd (addRow {[1%positive := new_station]} [1%positive]))
  = read {[1%positive := new_station]} [1%positive] ++ [Some new_station].
Proof.
  apply (addRow_appends_a_blank_station {[1%positive := new_station]} [1%positive]).
  repeat constructor. now exists new_station.
Defined.

End StationEditorFacts.

(** ** Playback clock, paused *)

Module PausedClock.

Definition leaves_paused (e : ClockEvent) : bool :=
  match e with
  | Tick | SetSpeed _ => true
  | TogglePlaying | Seek _ => false
  end.

Lemma paused_step (maxT : float) (c : Clock) (e : ClockEvent) :
  playing c = false -> leaves_paused e = true ->
  playing (clock_step maxT c e) = false /\
  clk_time (clock_step maxT c e) = clk_time c.
Proof.
  intros Hp He. destruct e; try discriminate He; cbn [clock_step].
  - unfold tick. rewrite Hp. cbn. auto.
  - cbn. auto.
Qed.

(** X16. A seek pauses the clock at the time it sets: from then on no
    tick and no change of speed moves the time, until play is pressed. *)
Theorem seek_holds_the_time (maxT value : float) (c : Clock) (events : list ClockEvent) :
  forallb leaves_paused events = true ->
  clk_time (run_clock maxT (seek value c) events) = value /\
  playing (run_clock maxT (seek value c) events) = false.
Proof.
  intros Hev.
  assert (H : forall c0, playing c0 = false ->
                         clk_time (run_clock maxT c0 events) = clk_time c0 /\
                         playing (run_clock maxT c0 events) = false).
  { induction events as [|e events IH]; intros c0 Hp; [auto|].
    cbn [forallb] in Hev. apply andb_true_iff in Hev. destruct Hev as [He Hev].
    destruct (paused_step maxT c0 e Hp He) as [Hp' Ht].
    unfold run_clock. cbn [foldl]. destruct (IH Hev _ Hp') as [IH1 IH2].
    split; [|exact IH2]. unfold run_clock in IH1. now rewrite IH1. }
  exact (H (seek value c) eq_refl).
Qed.

Lemma seek_witness :
  clk_time (run_clock 180 (seek 42 initial_clock) [Tick; SetSpeed 4; Tick; Tick]) = 42 /\
  playing (run_clock 180 (seek 42 initial_clock) [Tick; SetSpeed 4; Tick; Tick]) = false.
Proof.
  apply (seek_holds_the_time 180 42 initial_clock [Tick; SetSpeed 4; Tick; Tick]).
  reflexivity.
Defined.

End PausedClock.

(** ** Strings *)

Module StringFacts.

Lemma append_assoc (a b c : string) : (a +:+ b) +:+ c = a +:+ (b +:+ c).
Proof.
  induction a as [|x a IH]; [reflexivity|].
  change (String x ((a +:+ b) +:+ c) = String x (a +:+ (b +:+ c))). now f_equal.
Qed.

Lemma append_empty (a : string) : a +:+ EmptyString = a.
Proof.
  induction a as [|x a IH]; [reflexivity|].
  change (String x (a +:+ EmptyString) = String x a). now f_equal.
Qed.

(** Two texts that begin the same text: one of them begins the other. *)
Lemma prefix_of_same (a b x y : string) :
  a +:+ x = b +:+ y -> String.prefix a b = true \/ String.prefix b a = true.
Proof.
  revert b. induction a as [|c a IH]; intros b H; [left; now destruct b|].
  destruct b as [|c' b]; [now right|].
  change (String c (a +:+ x) = String c' (b +:+ y)) in H. injection H as -> H.
  cbn [String.prefix]. destruct (Ascii.ascii_dec c' c') as [_|Hc]; [|now destruct Hc].
  exact (IH b H).
Qed.

End StringFacts.

(** ** Trips of a run *)

Module TripFacts.
Import Stdlib.Strings.Ascii.
Import Orchestrator StringFacts.
Local Open Scope float_scope.

(** *** The trip ids *)

Fixpoint no_underscore (s : string) : bool :=
  match s with
  | EmptyString => true
  | String c r => negb (Ascii.eqb c "_"%char) && no_underscore r
  end.

(** The part of a string after its last underscore, if it has one. *)
Fixpoint after_last_underscore (s : string) : option string :=
  match s with
  | EmptyString => None
  | String c r =>
      match after_last_underscore r with
      | Some t => Some t
      | None => if Ascii.eqb c "_"%char then Some r else None
      end
  end.

Lemma pretty_N_go_no_underscore (x : N) (s : string) :
  no_underscore s = true -> no_underscore (pretty_N_go x s) = true.
Proof.
  revert s. induction (N.lt_wf_0 x) as [x _ IH]. intros s Hs.
  destruct (decide (0 < x)%N) as [Hx | Hx].
  - rewrite pretty_N_go_step by exact Hx. apply IH.
    + now apply N.div_lt.
    + cbn [no_underscore]. rewrite Hs, andb_true_r.
      unfold pretty_N_char. now repeat case_match.
  - replace x with 0%N by lia. now rewrite pretty_N_go_0.
Qed.

Lemma pretty_nat_no_underscore (i : nat) : no_underscore (pretty i) = true.
Proof.
  unfold pretty, pretty_nat, pretty, pretty_N.
  destruct (decide (N.of_nat i = 0%N)); [reflexivity|].
  now apply pretty_N_go_no_underscore.
Qed.

Lemma no_underscore_after_last (d : string) :
  no_underscore d = true -> after_last_underscore d = None.
Proof.
  induction d as [|c d IH]; [reflexivity|]. cbn. intros H.
  apply andb_true_iff in H. destruct H as [Hc Hd].
  rewrite (IH Hd). apply negb_true_iff in Hc. now rewrite Hc.
Qed.

Lemma after_last_underscore_skip (a s d : string) :
  after_last_underscore s = Some d -> after_last_underscore (a +:+ s) = Some d.
Proof.
  intros H. induction a as [|c a IH]; [exact H|].
  change (String c a +:+ s) with (String c (a +:+ s)).
  cbn [after_last_underscore]. now rewrite IH.
Qed.

Lemma trip_id_index (f : string) (i : nat) (e : RouteEntry) :
  after_last_underscore (trip_id (trip_of_entry f i e)) = Some (pretty i).
Proof.
  cbn [trip_id trip_of_entry].
  do 5 apply after_last_underscore_skip.
  change ("_" +:+ pretty i) with (String "_" (pretty i)).
  cbn [after_last_underscore].
  now rewrite (no_underscore_after_last _ (pretty_nat_no_underscore i)).
Qed.

Lemma trip_id_same_index (f f' : string) (i j : nat) (e e' : RouteEntry) :
  trip_id (trip_of_entry f i e) = trip_id (trip_of_entry f' j e') -> i = j.
Proof.
  intros H. pose proof (trip_id_index f i e) as Hi. rewrite H, trip_id_index in Hi.
  injection Hi as Hi. symmetry. exact (inj pretty _ _ Hi).
Qed.

(** Two trips with the same id: the name of one fleet, with its
    underscore, begins that of the other. *)
Lemma trip_id_same_start (f f' : string) (i j : nat) (e e' : RouteEntry) :
  trip_id (trip_of_entry f i e) = trip_id (trip_of_entry f' j e') ->
  prefix_free (f +:+ "_") (f' +:+ "_") = false.
Proof.
  cbn [trip_id trip_of_entry]. rewrite <- !(append_assoc _ "_"). intros H.
  unfold prefix_free. destruct (prefix_of_same _ _ _ _ H) as [-> | ->];
    [reflexivity | apply andb_false_r].
Qed.

(** *** The trips of one fleet *)

(** The loop over [routeResponses], started at index [n]. *)
Fixpoint assemble_from (f : string) (n : nat) (rs : list (option RouteEntry))
  : list Trip :=
  match rs with
  | [] => []
  | r :: rest =>
      match r with
      | None => []
      | Some e => [trip_of_entry f n e]
      end ++ assemble_from f (S n) rest
  end.

Lemma assemble_from_imap (f : string) (n : nat) (rs : list (option RouteEntry)) :
  concat (imap (fun i entry =>
                  match entry with
                  | None => []
                  | Some e => [trip_of_entry f (n + i) e]
                  end) rs)
  = assemble_from f n rs.
Proof.
  revert n. induction rs as [|r rs IH]; intros n; [reflexivity|].
  cbn [imap concat assemble_from]. rewrite Nat.add_0_r. f_equal.
  rewrite <- IH. f_equal. apply imap_ext. intros i x _. cbn.
  now rewrite Nat.add_succ_r.
Qed.

Lemma assemble_trips_from (f : string) (rs : list (option RouteEntry)) :
  assemble_trips f rs = assemble_from f 0 rs.
Proof. rewrite <- assemble_from_imap. reflexivity. Qed.

Lemma In_assemble_from (f : string) (n : nat) (rs : list (option RouteEntry)) (t : Trip) :
  In t (assemble_from f n rs) ->
  exists i e, rs !! i = Some (Some e) /\ t = trip_of_entry f (n + i) e.
Proof.
  revert n. induction rs as [|r rs IH]; intros n; [intros []|].
  cbn [assemble_from]. intros H. apply in_app_or in H. destruct H as [H | H].
  - destruct r as [e|]; [|destruct H]. destruct H as [<- | []].
    exists 0%nat, e. now rewrite Nat.add_0_r.
  - destruct (IH _ H) as (i & e & Hi & ->). exists (S i), e.
    now rewrite Nat.add_succ_r.
Qed.

Lemma assemble_from_NoDup (f : string) (n : nat) (rs : list (option RouteEntry)) :
  NoDup (map trip_id (assemble_from f n rs)).
Proof.
  revert n. induction rs as [|r rs IH]; intros n; [constructor|].
  cbn [assemble_from]. destruct r as [e|]; [|apply IH].
  cbn [app map]. constructor; [|apply IH].
  rewrite list_elem_of_In, in_map_iff. intros (t & Hid & Ht).
  destruct (In_assemble_from _ _ _ _ Ht) as (i & e' & _ & ->).
  apply trip_id_same_index in Hid. lia.
Qed.

(** *** The shape of a run *)

(** The properties that [stationById] has of its own are stations of the
    deployment, each under its id. *)
Lemma index_stations_own (sts : list StationDeployment) (k : string)
    (s : StationDeployment) :
  own (index_stations sts) !! k = Some s -> In s sts /\ sd_station_id s = k.
Proof.
  unfold index_stations.
  assert (H : forall o : StationById,
             own (foldl (fun o s => stationById_set o (sd_station_id s) s) o sts) !! k
             = Some s ->
             own o !! k = Some s \/ (In s sts /\ sd_station_id s = k)).
  { induction sts as [|x sts IH]; intros o Ho; [now left|].
    cbn [foldl] in Ho. destruct (IH _ Ho) as [Hx | [Hin Hid]].
    - unfold stationById_set in Hx.
      destruct (String.eqb (sd_station_id x) "__proto__"); cbn [own] in Hx; [now left|].
      destruct (decide (sd_station_id x = k)) as [E | E].
      + rewrite E, lookup_insert_eq in Hx. injection Hx as ->. right. split; [now left | exact E].
      + rewrite lookup_insert_ne in Hx by exact E. now left.
    - right. split; [now right | exact Hid]. }
  intros Ho. destruct (H empty_object Ho) as [Hx | Hx]; [|exact Hx].
  cbn [own empty_object] in Hx. now rewrite lookup_empty in Hx.
Qed.

Lemma station_get_declared (s : StationDeployment) (k : string) :
  existsb (String.eqb k) station_properties = false -> station_get s k = None.
Proof.
  cbn [existsb station_properties]. intros H.
  repeat (apply orb_false_iff in H; destruct H as [? H]).
  unfold station_get. now repeat match goal with E : String.eqb k _ = false |- _ =>
                                    rewrite E; clear E end.
Qed.

Lemma Object_prototype_get_own (k : string) :
  String.eqb k "constructor" = false ->
  existsb (String.eqb k) Object_prototype_methods = false ->
  Object_prototype_get k = None.
Proof. intros H1 H2. unfold Object_prototype_get. now rewrite H1, H2. Qed.

(** The prototype of [stationById] is replaced only by a station of the
    deployment that is called [__proto__]. *)
Lemma index_stations_proto (sts : list StationDeployment) (s : StationDeployment) :
  proto (index_stations sts) = Some s ->
  existsb (fun s => String.eqb (sd_station_id s) "__proto__") sts = true.
Proof.
  unfold index_stations.
  assert (H : forall o : StationById,
             proto (foldl (fun o s => stationById_set o (sd_station_id s) s) o sts) = Some s ->
             proto o = Some s \/
             existsb (fun s => String.eqb (sd_station_id s) "__proto__") sts = true).
  { induction sts as [|x sts IH]; intros o Ho; [now left|].
    cbn [foldl] in Ho. cbn [existsb]. destruct (IH _ Ho) as [Hx | Hx].
    - unfold stationById_set in Hx.
      destruct (String.eqb (sd_station_id x) "__proto__"); [now right | now left].
    - right. rewrite Hx. apply orb_true_r. }
  intros Ho. now destruct (H empty_object Ho).
Qed.

(** Under a key that is not an inherited one, [stationById] answers with
    a station of the deployment that has the key for id, or not at all. *)
Lemma stationById_get_ordinary (sts : list StationDeployment) (k : string) (v : JsValue) :
  stationById_get (index_stations sts) k = Some v ->
  inherited_key sts k = false ->
  exists s, v = VStation s /\ In s sts /\ sd_station_id s = k.
Proof.
  unfold stationById_get, inherited_key. intros Hget Hk.
  apply orb_false_iff in Hk. destruct Hk as [Hk Hprops].
  apply orb_false_iff in Hk. destruct Hk as [Hk Hmethods].
  apply orb_false_iff in Hk. destruct Hk as [Hproto Hcons].
  destruct (own (index_stations sts) !! k) as [s|] eqn:Hown.
  - injection Hget as <-. exists s. split; [reflexivity|].
    now apply index_stations_own.
  - rewrite Hproto, (Object_prototype_get_own k Hcons Hmethods) in Hget.
    destruct (proto (index_stations sts)) as [s|] eqn:Hp; [|discriminate].
    rewrite (index_stations_proto _ _ Hp) in Hprops.
    now rewrite (station_get_declared s k Hprops) in Hget.
Qed.

(** What a route entry says of its move. *)
Definition entry_matches (sts : list StationDeployment) (m : Move)
    (r : option RouteEntry) : Prop :=
  forall e, r = Some e ->
    re_move e = m /\
    (known_station sts (Some (from_station_id m))
     \/ inherited_name sts (Some (from_station_id m))) /\
    (known_station sts (Some (to_station_id m))
     \/ inherited_name sts (Some (to_station_id m))).

Lemma known_or_inherited (sts : list StationDeployment) (k : string) (v : JsValue) :
  stationById_get (index_stations sts) k = Some v ->
  known_station sts (Some k) \/ inherited_name sts (Some k).
Proof.
  intros H. destruct (inherited_key sts k) eqn:Hk.
  - right. now exists k.
  - left. destruct (stationById_get_ordinary _ _ _ H Hk) as (s & _ & Hin & <-).
    now exists s.
Qed.

Lemma fetch_route_matches (B : Backend) (f : FleetType) (sts : list StationDeployment)
    (i : nat) (m : Move) (r : option RouteEntry) :
  fetch_route B f (index_stations sts) i m = Returned r -> entry_matches sts m r.
Proof.
  unfold fetch_route. intros H e ->.
  destruct (stationById_get (index_stations sts) (from_station_id m)) as [from|] eqn:Hf;
    [|discriminate].
  destruct (stationById_get (index_stations sts) (to_station_id m)) as [to|] eqn:Ht;
    [|discriminate].
  destruct (negb (truthy_value from) || negb (truthy_value to)); [discriminate|].
  destruct (route B f i _); try discriminate. injection H as <-.
  split; [reflexivity|]. split; eapply known_or_inherited; eassumption.
Qed.

Lemma Promise_all_imap_Forall2 {A R} (g : nat -> A -> Outcome R) (l : list A)
    (rs : list R) :
  Promise_all (imap g l) = Returned rs ->
  Forall2 (fun x r => exists i, g i x = Returned r) l rs.
Proof.
  intros H. apply Promise_all_Returned in H. revert g rs H.
  induction l as [|x l IH]; intros g [|r rs] H; try discriminate; [constructor|].
  cbn [imap map] in H. injection H as Hx Hl.
  constructor; [eauto|]. eapply Forall2_impl; [exact (IH _ _ Hl)|].
  cbn. intros y r' (i & Hi). eauto.
Qed.

Lemma process_fleet_trips (B : Backend) (acc acc' : Acc) (f : FleetType)
    (inputs : list StationInput) :
  process_fleet B acc (f, inputs) = Returned acc' ->
  exists rs,
    allTrips acc' = allTrips acc ++ assemble_from (fleet_from_backend B f inputs) 0 rs /\
    Forall2 (entry_matches (returned_stations B f inputs)) (returned_moves B f inputs) rs.
Proof.
  unfold process_fleet, fleet_from_backend, returned_stations, returned_moves.
  destruct (optimize_deployment B f inputs) as [|status|d]; [discriminate| |].
  - intros [= <-]. exists []. rewrite app_nil_r. split; [reflexivity | constructor].
  - destruct (Promise_all _) as [|rs] eqn:Hall; [discriminate|]. cbn.
    intros [= <-]. cbn [allTrips]. exists rs. rewrite assemble_trips_from.
    split; [reflexivity|].
    eapply Forall2_impl; [exact (Promise_all_imap_Forall2 _ _ _ Hall)|].
    cbn. intros m r (i & Hi). exact (fetch_route_matches _ _ _ _ _ _ Hi).
Qed.

Lemma assemble_from_follows_moves (f : string) (sts : list StationDeployment)
    (moves : list Move) (rs : list (option RouteEntry)) (n : nat) :
  Forall2 (entry_matches sts) moves rs ->
  sublist (map trip_endpoints (assemble_from f n rs)) (map move_pair moves) /\
  Forall (fun t =>
            (known_station sts (fromStationId t) \/ inherited_name sts (fromStationId t)) /\
            (known_station sts (toStationId t) \/ inherited_name sts (toStationId t)))
         (assemble_from f n rs).
Proof.
  intros H. revert n. induction H as [|m r moves rs Hm _ IH]; intros n.
  - split; constructor.
  - destruct (IH (S n)) as [IH1 IH2]. cbn [assemble_from map].
    destruct r as [e|]; cbn [app map].
    + destruct (Hm e eq_refl) as (Hmove & Hfrom & Hto). split.
      * unfold trip_endpoints at 1. cbn [fromStationId toStationId trip_of_entry].
        rewrite Hmove. now constructor.
      * constructor; [|exact IH2].
        cbn [fromStationId toStationId trip_of_entry]. now rewrite Hmove.
    + split; [now constructor | exact IH2].
Qed.

Section Run.

Variables F P : list StationInput.
Variable B : Backend.
Variables fs ps : option (list StationInput).

Lemma run_trips (acc : Acc) :
  run_fleets F P B fs ps = Returned acc ->
  exists rsF rsP,
    allTrips acc
    = assemble_from (fleet_from_backend B fire (fleet_inputs F P fs ps fire)) 0 rsF
      ++ assemble_from (fleet_from_backend B police (fleet_inputs F P fs ps police)) 0 rsP /\
    Forall2 (entry_matches (returned_stations B fire (fleet_inputs F P fs ps fire)))
            (returned_moves B fire (fleet_inputs F P fs ps fire)) rsF /\
    Forall2 (entry_matches (returned_stations B police (fleet_inputs F P fs ps police)))
            (returned_moves B police (fleet_inputs F P fs ps police)) rsP.
Proof.
  intros Hrun. destruct (run_fleets_Returned _ _ _ _ _ acc Hrun) as (acc1 & E1 & E2).
  destruct (process_fleet_trips _ _ _ _ _ E1) as (rsF & T1 & M1).
  destruct (process_fleet_trips _ _ _ _ _ E2) as (rsP & T2 & M2).
  exists rsF, rsP. rewrite T2, T1. cbn [allTrips empty_acc app]. auto.
Qed.

(** The trips of a scene: the fallback, or the trips of the run. *)
Lemma scene_trips :
  trips (fetchAll F P B fs ps) = SAMPLE_TRIPS \/
  exists acc, run_fleets F P B fs ps = Returned acc /\ allTrips acc <> [] /\
              trips (fetchAll F P B fs ps) = allTrips acc.
Proof.
  unfold fetchAll. destruct (run_fleets F P B fs ps) as [|acc]; [now left|].
  cbn [trips]. destruct (allTrips acc) as [|t ts] eqn:E; [now left|].
  right. exists acc. rewrite E. auto.
Qed.

(** X17. The ids of the trips of a scene are pairwise distinct when the
    names that the two deployments give their fleets, each followed by
    an underscore, do not begin one another, as with [fire] and
    [police]. The name of a fleet is a string that the backend chooses;
    within one fleet the index of the move keeps the ids apart,
    whatever the station ids are. *)
Theorem trip_ids_are_unique :
  prefix_free (fleet_from_backend B fire (fleet_inputs F P fs ps fire) +:+ "_")
              (fleet_from_backend B police (fleet_inputs F P fs ps police) +:+ "_") = true ->
  NoDup (map trip_id (trips (fetchAll F P B fs ps))).
Proof.
  intros Hne. destruct scene_trips as [-> | (acc & Hrun & _ & ->)].
  { cbn. repeat constructor. now rewrite elem_of_nil. }
  destruct (run_trips acc Hrun) as (rsF & rsP & -> & _ & _).
  rewrite map_app. apply NoDup_app. split; [apply assemble_from_NoDup|].
  split; [|apply assemble_from_NoDup].
  intros id HF HP. apply list_elem_of_In, in_map_iff in HF, HP.
  destruct HF as (t1 & <- & H1), HP as (t2 & Hid & H2).
  destruct (In_assemble_from _ _ _ _ H1) as (i1 & e1 & _ & ->).
  destruct (In_assemble_from _ _ _ _ H2) as (i2 & e2 & _ & ->).
  apply trip_id_same_start in Hid.
  unfold prefix_free in Hne, Hid. rewrite andb_comm in Hid. congruence.
Qed.

(** X18. The trips of a run that does not throw are those of the fire
    fleet followed by those of the police fleet; within a fleet they
    follow the order of its moves, a trip for some of the moves and none
    for the others; and each station id of a trip is the id of a station
    of the deployment of its fleet, or else a key that the object
    [stationById] inherits. *)
Theorem trips_follow_the_moves (acc : Acc) :
  run_fleets F P B fs ps = Returned acc ->
  exists fromFire fromPolice,
    allTrips acc = fromFire ++ fromPolice /\
    sublist (map trip_endpoints fromFire)
            (map move_pair (returned_moves B fire (fleet_inputs F P fs ps fire))) /\
    sublist (map trip_endpoints fromPolice)
            (map move_pair (returned_moves B police (fleet_inputs F P fs ps police))) /\
    Forall (fun t =>
              endpoint_of (returned_stations B fire (fleet_inputs F P fs ps fire))
                (fromStationId t) /\
              endpoint_of (returned_stations B fire (fleet_inputs F P fs ps fire))
                (toStationId t)) fromFire /\
    Forall (fun t =>
              endpoint_of (returned_stations B police (fleet_inputs F P fs ps police))
                (fromStationId t) /\
              endpoint_of (returned_stations B police (fleet_inputs F P fs ps police))
                (toStationId t)) fromPolice.
Proof.
  intros Hrun. destruct (run_trips acc Hrun) as (rsF & rsP & E & MF & MP).
  destruct (assemble_from_follows_moves
              (fleet_from_backend B fire (fleet_inputs F P fs ps fire)) _ _ _ 0 MF)
    as [SF KF].
  destruct (assemble_from_follows_moves
              (fleet_from_backend B police (fleet_inputs F P fs ps police)) _ _ _ 0 MP)
    as [SP KP].
  eexists _, _. split; [exact E|]. auto.
Qed.

(** X19. After [fetchAll] the trip list is never empty and the time is
    back at [0]; and the fallback trip never stands beside real trips:
    a trip list that holds a trip without station ids is the fallback
    list. *)
Theorem fallback_never_mixes_with_trips :
  trips (fetchAll F P B fs ps) <> [] /\
  currentTime (fetchAll F P B fs ps) = 0 /\
  forall t, In t (trips (fetchAll F P B fs ps)) -> fromStationId t = None ->
            trips (fetchAll F P B fs ps) = SAMPLE_TRIPS.
Proof.
  split; [|split].
  - destruct scene_trips as [-> | (acc & _ & Hne & ->)]; [discriminate | exact Hne].
  - unfold fetchAll. now destruct (run_fleets F P B fs ps).
  - intros t Ht Hnone. destruct scene_trips as [E | (acc & Hrun & _ & E)]; [exact E|].
    exfalso. rewrite E in Ht.
    destruct (run_trips acc Hrun) as (rsF & rsP & E' & _ & _).
    rewrite E' in Ht. apply in_app_or in Ht.
    destruct Ht as [Ht | Ht]; destruct (In_assemble_from _ _ _ _ Ht) as (i & e & _ & ->);
      discriminate Hnone.
Qed.

(** X20. When neither deployment recommends a move, whatever else the
    backend answers, the run ends with the fallback trip and no station
    flagged: the moving station ids of the context snapshot are empty. *)
Theorem quiet_deployments_move_nothing :
  returned_moves B fire (fleet_inputs F P fs ps fire) = [] ->
  returned_moves B police (fleet_inputs F P fs ps police) = [] ->
  trips (fetchAll F P B fs ps) = SAMPLE_TRIPS /\
  Forall (fun s => st_inMove s = false) (stations (fetchAll F P B fs ps)) /\
  context_moving_station_ids (stations (fetchAll F P B fs ps)) = [].
Proof.
  intros HF HP.
  assert (Hflag : Forall (fun s => st_inMove s = false) (stations (fetchAll F P B fs ps))).
  { unfold fetchAll. destruct (run_fleets F P B fs ps) as [|acc] eqn:Hrun; [constructor|].
    cbn [stations].
    destruct (run_fleets_Returned _ _ _ _ _ acc Hrun) as (acc1 & E1 & E2).
    destruct (process_fleet_stations _ _ _ _ _ E1) as (A1 & l1 & S1 & _ & I1).
    destruct (process_fleet_stations _ _ _ _ _ E2) as (A2 & l2 & S2 & _ & I2).
    rewrite HF in A1. rewrite HP, A1 in A2. cbn in A1, A2.
    rewrite S2, S1. cbn [allStations empty_acc app]. apply Forall_app. split.
    - eapply Forall_impl; [exact I1|]. cbn. intros s Hs. rewrite A1 in Hs.
      destruct (st_inMove s); [|reflexivity].
      now destruct (not_elem_of_empty (C := gset string) (station_id s)); apply Hs.
    - eapply Forall_impl; [exact I2|]. cbn. intros s Hs. rewrite A2 in Hs.
      destruct (st_inMove s); [|reflexivity].
      now destruct (not_elem_of_empty (C := gset string) (station_id s)); apply Hs. }
  split; [|split]; [|exact Hflag|].
  - destruct scene_trips as [E | (acc & Hrun & Hne & _)]; [exact E|]. exfalso.
    destruct (run_trips acc Hrun) as (rsF & rsP & E' & MF & MP).
    rewrite HF in MF. rewrite HP in MP. inversion MF; inversion MP; subst.
    now apply Hne.
  - unfold context_moving_station_ids.
    replace (List.filter st_inMove (stations (fetchAll F P B fs ps))) with (@nil Station);
      [reflexivity|].
    symmetry. induction Hflag as [|s l Hs _ IH]; [reflexivity|].
    cbn. now rewrite Hs.
Qed.

End Run.

Import Scenario.

(** The hypothesis on the fleet names is needed: with the fleets named
    [x] and [x_y], a move of the first from [y_A] to [B] and a move of
    the second from [A] to [B] get the same id. *)
Lemma nested_fleet_names_collide :
  map trip_id (trips (fetchAll [] [] nested_fleet_names None None))
  = ["x_y_A_B_0"; "x_y_A_B_0"].
Proof. reflexivity. Qed.

(** A station id that [stationById] inherits: the move from
    [constructor], which no station of the deployment is called, is not
    dropped. Its route is requested without a start, and its trip is
    named after the function that the read gave. *)
Lemma inherited_endpoint_gets_a_trip :
  returned_stations inherited_endpoint fire [] = [FS2] /\
  fetch_route inherited_endpoint fire (index_stations [FS2]) 0
    (mkMove "constructor" "FS2" 1 2.5)
  = Returned (Some (mkRouteEntry self_move_route (mkMove "constructor" "FS2" 1 2.5)
                      (VFunction "Object") (VStation FS2))) /\
  map (fun t => (trip_id t, fromStationId t, fromStationName t))
      (trips (fetchAll [] [] inherited_endpoint None None))
  = [("fire_constructor_FS2_0", Some "constructor", Some "Object")].
Proof. repeat split; reflexivity. Qed.

Lemma trip_ids_witness :
  map trip_id (trips (fetchAll [] [] both_fleets_move None None))
  = ["fire_FS1_FS2_0"; "fire_FS2_FS1_1"; "police_PS1_FS2_0"] /\
  NoDup (map trip_id (trips (fetchAll [] [] both_fleets_move None None))).
Proof.
  split; [reflexivity|].
  apply (trip_ids_are_unique [] [] both_fleets_move None None). reflexivity.
Defined.

Lemma trips_follow_witness :
  exists fromFire fromPolice,
    [trip_of_entry "fire" 0
       (mkRouteEntry (mkRouteJson []) (mkMove "FS1" "FS2" 1 2.5) (VStation FS1) (VStation FS2))]
    = fromFire ++ fromPolice /\
    sublist (map trip_endpoints fromFire) [(Some "FS1", Some "FS2")] /\
    sublist (map trip_endpoints fromPolice) [].
Proof.
  destruct (trips_follow_the_moves [] [] empty_route None None
              match run_fleets [] [] empty_route None None with
              | Returned acc => acc
              | Threw => empty_acc
              end eq_refl)
    as (tF & tP & E & SF & SP & _).
  exists tF, tP. repeat split; assumption.
Defined.

Lemma quiet_deployments_witness :
  trips (fetchAll [] [] police_only_quiet None None) = SAMPLE_TRIPS /\
  Forall (fun s => st_inMove s = false) (stations (fetchAll [] [] police_only_quiet None None)) /\
  context_moving_station_ids (stations (fetchAll [] [] police_only_quiet None None)) = [].
Proof.
  apply (quiet_deployments_move_nothing [] [] police_only_quiet None None); reflexivity.
Defined.

End TripFacts.

(** ** Chat stream *)

Module ChatFacts.
Import Chat StringFacts.

(** Whether [c] and the first character of [r] make a separator. *)
Definition separator_at (c : Ascii.ascii) (r : string) : bool :=
  match r with
  | String c' _ => is_newline c && is_newline c'
  | EmptyString => false
  end.

Lemma split_events_unfold (c : Ascii.ascii) (r : string) :
  split_events (String c r) =
  if separator_at c r then EmptyString :: split_events (slice 1 r)
  else cons_head c (split_events r).
Proof. destruct r as [|c' r']; reflexivity. Qed.

Lemma split_events_nonempty (s : string) : split_events s <> [].
Proof.
  destruct s as [|c r]; [discriminate|]. rewrite split_events_unfold.
  destruct (separator_at c r); [discriminate|].
  now destruct (split_events r).
Qed.

Lemma split_events_single (s p : string) : split_events s = [p] -> p = s.
Proof.
  revert p. induction s as [|c r IH]; intros p; [now intros [= <-]|].
  rewrite split_events_unfold. destruct (separator_at c r).
  - intros [= _ H]. now destruct (split_events_nonempty _ H).
  - destruct (split_events r) as [|q [|q' qs]] eqn:E; cbn [cons_head].
    + now destruct (split_events_nonempty r).
    + intros [= <-]. now rewrite (IH q eq_refl).
    + discriminate.
Qed.

Lemma separator_at_append (c : Ascii.ascii) (r s : string) :
  r <> EmptyString -> separator_at c (r +:+ s) = separator_at c r.
Proof. destruct r; [congruence | reflexivity]. Qed.

Lemma removelast_cons {A} (x : A) (l : list A) :
  l <> [] -> removelast (x :: l) = x :: removelast l.
Proof. destruct l; [congruence | reflexivity]. Qed.

Lemma last_cons {A} (x d : A) (l : list A) :
  l <> [] -> List.last (x :: l) d = List.last l d.
Proof. destruct l; [congruence | reflexivity]. Qed.

Lemma last_append {A} (l1 l2 : list A) (d : A) :
  l2 <> [] -> List.last (l1 ++ l2) d = List.last l2 d.
Proof.
  intros H. induction l1 as [|x l1 IH]; [reflexivity|].
  cbn [app]. rewrite last_cons; [exact IH | now destruct l1, l2].
Qed.

(** Splitting a text that goes on: the events that were complete stay
    as they are, and the splitting resumes in the part that was left. *)
Lemma split_events_append (s1 s2 : string) :
  split_events (s1 +:+ s2) =
  removelast (split_events s1)
  ++ split_events (List.last (split_events s1) EmptyString +:+ s2).
Proof.
  remember (String.length s1) as n eqn:Hn.
  revert s1 Hn. induction n as [n IH] using lt_wf_ind. intros s1 Hn.
  destruct s1 as [|c r]; [reflexivity|].
  change (String c r +:+ s2) with (String c (r +:+ s2)).
  rewrite (split_events_unfold c r).
  destruct (separator_at c r) eqn:Hsep.
  - destruct r as [|c' r']; [discriminate|].
    change (String c' r' +:+ s2) with (String c' (r' +:+ s2)).
    cbn [split_events]. cbn [separator_at] in Hsep. rewrite Hsep.
    cbn [slice]. rewrite removelast_cons, last_cons by apply split_events_nonempty.
    cbn [app]. f_equal. apply (IH (String.length r')); [cbn in Hn; lia | reflexivity].
  - destruct r as [|c' r'].
    + reflexivity.
    + rewrite split_events_unfold, separator_at_append, Hsep by discriminate.
      rewrite (IH (String.length (String c' r'))) by (cbn in *; lia || reflexivity).
      destruct (split_events (String c' r')) as [|p [|q ps]] eqn:E.
      * now destruct (split_events_nonempty (String c' r')).
      * cbn [removelast List.last cons_head app].
        apply split_events_single in E. subst p.
        change (String c (String c' r') +:+ s2) with (String c (String c' r' +:+ s2)).
        now rewrite split_events_unfold, separator_at_append, Hsep by discriminate.
      * cbn [cons_head]. rewrite !removelast_cons by discriminate.
        rewrite !last_cons by discriminate. reflexivity.
Qed.

(** The flag of [read_lines] does not depend on the text so far, and the
    text only grows. *)
Lemma read_lines_text (lines : list string) (t : string) :
  exists suffix,
    forall t', read_lines lines t' = (t' +:+ suffix, snd (read_lines lines t)).
Proof.
  revert t. induction lines as [|l lines IH]; intros t.
  - exists EmptyString. intros t'. cbn. now rewrite append_empty.
  - cbn [read_lines]. destruct (negb (String.prefix "data:" (remove_returns l))).
    { exact (IH t). }
    destruct (_ || _)%bool.
    { exists EmptyString. intros t'. cbn. now rewrite append_empty. }
    destruct (String.eqb _ _); [exact (IH t)|].
    destruct (IH (t +:+ slice 5 (remove_returns l))) as (suffix & H).
    exists (slice 5 (remove_returns l) +:+ suffix). intros t'.
    rewrite H, append_assoc. reflexivity.
Qed.

Lemma read_lines_done (lines : list string) (t : string) :
  snd (read_lines lines t) = snd (read_lines lines EmptyString).
Proof.
  destruct (read_lines_text lines EmptyString) as (suffix & H). now rewrite (H t).
Qed.

Lemma read_events_text (parts : list string) :
  exists suffix,
    forall st,
      read_events parts st =
      mkStream (if existsb has_done parts then EmptyString else buffer st)
               (assistantText st +:+ suffix).
Proof.
  induction parts as [|part parts IH].
  - exists EmptyString. intros [b t]. cbn. now rewrite append_empty.
  - destruct IH as (suffix & IH).
    destruct (read_lines_text (split_lines part) EmptyString) as (sfx & Hl).
    exists (sfx +:+ suffix). intros [b t]. cbn [read_events assistantText buffer existsb].
    rewrite (Hl t). fold (has_done part). rewrite IH.
    cbn [assistantText buffer]. rewrite append_assoc.
    now destruct (has_done part), (existsb has_done parts).
Qed.

Lemma read_events_app (l1 l2 : list string) (st : Stream) :
  read_events (l1 ++ l2) st = read_events l2 (read_events l1 st).
Proof.
  revert st. induction l1 as [|p l1 IH]; intros st; [reflexivity|].
  cbn [app read_events]. destruct (read_lines _ _). apply IH.
Qed.

(** X21. The text that a stream produces does not depend on where the
    network cuts it: as long as no event completed so far is a [[DONE]]
    event, reading a piece and then another gives the same text and the
    same buffer as reading the two pieces as one. *)
Theorem chunking_does_not_matter (st : Stream) (s1 s2 : string) :
  existsb has_done (removelast (split_events (buffer st +:+ s1))) = false ->
  read_chunk (read_chunk st s1) s2 = read_chunk st (s1 +:+ s2).
Proof.
  intros Hdone. destruct st as [b t]. unfold read_chunk. cbn [buffer assistantText] in *.
  rewrite <- append_assoc, (split_events_append (b +:+ s1) s2).
  set (parts1 := split_events (b +:+ s1)) in *.
  destruct (read_events_text (removelast parts1)) as (sfx & H1).
  rewrite H1, Hdone. cbn [buffer assistantText].
  set (X := split_events (List.last parts1 EmptyString +:+ s2)).
  assert (HX : X <> []) by apply split_events_nonempty.
  rewrite removelast_app, last_append by exact HX.
  rewrite read_events_app, H1, Hdone. reflexivity.
Qed.

Lemma chunking_witness :
  let st := mkStream EmptyString "Hi" in
  let s1 := "data: Hel" in
  let nl := String (Ascii.ascii_of_nat 10) EmptyString in
  let s2 := "lo" +:+ nl +:+ nl +:+ "data: [DONE]" +:+ nl +:+ nl in
  existsb has_done (removelast (split_events (buffer st +:+ s1))) = false /\
  read_chunk (read_chunk st s1) s2 = read_chunk st (s1 +:+ s2) /\
  assistantText (read_chunk st (s1 +:+ s2)) = "Hi Hello".
Proof.
  cbv zeta. split; [reflexivity|]. split; [|reflexivity].
  apply (chunking_does_not_matter (mkStream EmptyString "Hi")). reflexivity.
Defined.

(** X22. Reading a piece of the stream never takes back text that was
    already shown: the assistant text after the piece is the text before
    it followed by what the piece added. *)
Theorem assistant_text_only_grows (st : Stream) (decoded : string) :
  exists added,
    assistantText (read_chunk st decoded) = assistantText st +:+ added.
Proof.
  unfold read_chunk.
  destruct (read_events_text (removelast (split_events (buffer st +:+ decoded))))
    as (added & H).
  exists added. now rewrite H.
Qed.

End ChatFacts.
